(** * Symbolic-music conversion layer of magenta-js

    A shallow embedding of

    - [music/src/core/midi_io.ts]: [midiToSequenceProto] and
      [sequenceProtoToMidi], the converters between the structure exchanged
      with the MIDI codec and a [NoteSequence];
    - the Coconet utilities: [pianorollToSequence], [sequenceToPianoroll],
      [flatArrayToPianoroll] and [buildEmptyPianoroll].

    JavaScript numbers that the protobuf schema types as integers are [Z]
    (loop counters and array positions are [nat]); the ones it types as
    doubles (times, tempo, normalised velocity) are exact rationals [Q], so
    the rounding of IEEE doubles is outside the model.  A [throw] is the
    [Throws] constructor of [outcome], a [return] is [Returns]. *)

From Stdlib Require Import ZArith QArith Qround String Ascii DecimalString Lia Lqa.
From stdpp Require Import base list sorting.

Set Default Proof Using "Type".

(** ** JavaScript run-time notions shared by both source files *)

Module JS.

(** The exceptions the two files can raise: [new Error(msg)] in the Coconet
    utilities, [new MidiConversionError(msg)] in [midi_io.ts], and the
    engine's [TypeError] when a property of [undefined] is read or written
    (its message is engine-specific and not modelled). *)
Inductive error : Type :=
  | Error (message : string)
  | MidiConversionError (message : string)
  | TypeError.

Inductive outcome (A : Type) : Type :=
  | Returns (value : A)
  | Throws (e : error).
Arguments Returns {A} value.
Arguments Throws {A} e.

#[export] Instance outcome_bind : MBind outcome := λ A B k o,
  match o with
  | Returns a => k a
  | Throws e => Throws e
  end.

(** [xs.forEach(x => body)], or a [for] loop over [xs], where [body] updates
    the enclosing state and may throw: the first exception aborts the
    iteration. *)
Fixpoint forEach {A S} (body : S → A → outcome S) (xs : list A) (s : S)
    : outcome S :=
  match xs with
  | [] => Returns s
  | x :: rest => s' ← body s x; forEach body rest s'
  end.

(** Nested [forEach((x, i) => ...)] callbacks whose only effect is to push
    onto one shared array: the pushes of element [i] are [f i x], in order. *)
Definition collect {A B} (f : nat → A → list B) (xs : list A) : list B :=
  mjoin (imap f xs).

(** [Number.prototype.toString] on an integer: decimal digits, a leading
    minus sign for negative values. *)
Definition toString (z : Z) : string := NilZero.string_of_int (Z.to_int z).

(** [a[i]] for a numeric [i]: [undefined] (here [None]) when [i] is negative
    or past the end. *)
Definition index {A} (a : list A) (i : Z) : option A :=
  if (i <? 0)%Z then None else a !! Z.to_nat i.

(** [a.slice(start, end)] for non-negative integer bounds: the elements at
    positions [start ≤ i < min end (length a)]; never throws. *)
Definition slice {A} (start end_ : nat) (a : list A) : list A :=
  take (end_ - start) (drop start a).

(** The default comparator of [Array.prototype.sort]: both elements are
    converted with [toString] and the strings are compared by code unit. *)
Definition sortCompareLt (x y : Z) : bool :=
  String.ltb (toString x) (toString y).

Fixpoint sortInsert (x : Z) (sorted : list Z) : list Z :=
  match sorted with
  | [] => [x]
  | y :: rest =>
      if sortCompareLt y x then y :: sortInsert x rest else x :: y :: rest
  end.

(** [a.sort()] with no comparator.  The order of the result is fixed by the
    comparator whenever the elements have distinct string forms, which holds
    for distinct integers; a stable insertion sort is one algorithm
    producing it. *)
Definition sort (a : list Z) : list Z := foldr sortInsert [] a.

(** The integers whose string form is a single digit. *)
Definition digit (x : Z) : Prop := (0 ≤ x < 10)%Z.

(** A [Map<number, V>]: an association list in insertion order, one entry
    per key. *)
Abbreviation Map V := (list (Z * V)).

Fixpoint mapGet {V} (m : Map V) (k : Z) : option V :=
  match m with
  | [] => None
  | (k', v) :: rest => if decide (k' = k) then Some v else mapGet rest k
  end.

Definition mapHas {V} (m : Map V) (k : Z) : bool :=
  bool_decide (is_Some (mapGet m k)).

(** [m.set(k, v)]: an existing key keeps its position, a new key goes last.
    The same function models the in-place update of the array stored under
    [k] by [m.get(k).push(x)]. *)
Fixpoint mapSet {V} (m : Map V) (k : Z) (v : V) : Map V :=
  match m with
  | [] => [(k, v)]
  | (k', v') :: rest =>
      if decide (k' = k) then (k, v) :: rest else (k', v') :: mapSet rest k v
  end.

Definition mapKeys {V} (m : Map V) : list Z := fst <$> m.

End JS.

Export JS.

(** ** The Coconet pianoroll utilities *)

Module Coconet.

(** The fields of [NoteSequence.Note] and [NoteSequence] that the pianoroll
    functions read or assign. *)
Record Note : Type := mkNote {
  pitch : Z;
  instrument : Z;
  quantizedStartStep : Z;
  quantizedEndStep : Z;
}.

Record NoteSequence : Type := mkNoteSequence {
  notes : list Note;
  totalQuantizedSteps : Z;
}.

Definition NUM_PITCHES : nat := 46.
Definition MIN_PITCH : Z := 36.

(** A pianoroll is a [number[][][]], indexed [[step][pitch][voice]]. *)
Abbreviation Pianoroll A := (list (list (list A))).

(** [pianoroll[s][p][v]], [None] when one of the three reads is out of
    range. *)
Definition cell {A} (pianoroll : Pianoroll A) (s p v : nat) : option A :=
  step ← pianoroll !! s; row ← step !! p; row !! v.

(** The note pushed for an active cell. *)
Definition noteAt (stepIndex pitchIndex voiceIndex : nat) : Note :=
  {| pitch := Z.of_nat pitchIndex + MIN_PITCH;
     instrument := Z.of_nat voiceIndex;
     quantizedStartStep := Z.of_nat stepIndex;
     quantizedEndStep := Z.of_nat stepIndex + 1 |}.

(** The two inner callbacks of [pianorollToSequence], run on one step. *)
Definition stepNotes (stepIndex : nat) (step : list (list Z)) : list Note :=
  collect (λ pitchIndex pitch,
    collect (λ voiceIndex value,
      if (value =? 1)%Z then [noteAt stepIndex pitchIndex voiceIndex]
      else []) pitch) step.

(** The array [notes] after [pianoroll.forEach]. *)
Definition emittedNotes (pianoroll : Pianoroll Z) : list Note :=
  collect stepNotes pianoroll.

(** [pianorollToSequence].  Its last statement reads
    [notes[notes.length - 1].quantizedEndStep]; when [notes] is empty the
    element is [undefined] and the property read raises a [TypeError]. *)
Definition pianorollToSequence (pianoroll : Pianoroll Z)
    : outcome NoteSequence :=
  let notes := emittedNotes pianoroll in
  match index notes (Z.of_nat (length notes) - 1) with
  | None => Throws TypeError
  | Some lastNote =>
      Returns {| notes := notes;
                 totalQuantizedSteps := quantizedEndStep lastNote |}
  end.

(** The inner loop of [buildEmptyPianoroll],
    [for (; step.push([0, 0, 0, 0]) < NUM_PITCHES;) {}]: [push] returns the
    new length, so a row is appended before every test. *)
Fixpoint pushRows (fuel : nat) (step : list (list Z)) : list (list Z) :=
  match fuel with
  | 0 => step
  | S fuel' =>
      let step' := step ++ [[0; 0; 0; 0]%Z] in
      if length step' <? NUM_PITCHES then pushRows fuel' step' else step'
  end.

(** [buildEmptyPianoroll].  Every step and every row is a fresh array
    literal, so no two cells of the result share storage and an assignment
    to one cell is an update of that cell alone. *)
Definition buildEmptyPianoroll (numberOfSteps : nat) : Pianoroll Z :=
  (λ _, pushRows NUM_PITCHES []) <$> seq 0 numberOfSteps.

(** [pianoroll[i][pitchIndex][voice] = 1].  Reading [pianoroll[i]] or
    [pianoroll[i][pitchIndex]] out of range gives [undefined], and the next
    property access on it raises a [TypeError].  The caller has checked
    [0 ≤ voice ≤ 3] and every row was built with four entries, so the final
    assignment always overwrites an existing element. *)
Definition setCell (pianoroll : Pianoroll Z) (i pitchIndex voice : Z)
    : outcome (Pianoroll Z) :=
  match index pianoroll i with
  | None => Throws TypeError
  | Some step =>
      match index step pitchIndex with
      | None => Throws TypeError
      | Some row =>
          Returns (<[Z.to_nat i :=
                     <[Z.to_nat pitchIndex :=
                        <[Z.to_nat voice := 1%Z]> row]> step]> pianoroll)
      end
  end.

(** The callback of [notes.forEach] in [sequenceToPianoroll]. *)
Definition encodeNote (pianoroll : Pianoroll Z) (note : Note)
    : outcome (Pianoroll Z) :=
  let pitchIndex := (pitch note - MIN_PITCH)%Z in
  let stepIndex := quantizedStartStep note in
  let duration := (quantizedEndStep note - quantizedStartStep note)%Z in
  let voice := instrument note in
  if bool_decide (voice < 0 ∨ voice > 3)%Z then
    Throws (Error ("Found invalid voice " ++ toString voice ++ ". Skipping."))
  else
    forEach (λ roll k, setCell roll (stepIndex + Z.of_nat k) pitchIndex voice)
            (seq 0 (Z.to_nat duration)) pianoroll.

Definition sequenceToPianoroll (ns : NoteSequence) (numberOfSteps : nat)
    : outcome (Pianoroll Z) :=
  forEach encodeNote (notes ns) (buildEmptyPianoroll numberOfSteps).

(** [flatArrayToPianoroll]: two counting loops, each pushing one element per
    iteration; the function contains no [throw] and [slice] never raises. *)
Definition flatArrayToPianoroll {A} (flatArray : list A) (numberOfSteps : nat)
    : outcome (Pianoroll A) :=
  Returns
    ((λ stepIndex,
        (λ pitchIndex,
           let index := stepIndex * NUM_PITCHES * 4 + pitchIndex * 4 in
           slice index (index + 4) flatArray) <$> seq 0 NUM_PITCHES)
       <$> seq 0 numberOfSteps).

(** *** Notions used to state the properties of the encoder *)

(** The voice passes the test [voice < 0 || voice > 3]. *)
Definition validVoice (note : Note) : Prop := (0 ≤ instrument note ≤ 3)%Z.

(** Pitch within the 46 rows starting at [MIN_PITCH], steps within the
    [numberOfSteps] allocated steps. *)
Definition inRange (numberOfSteps : nat) (note : Note) : Prop :=
  (MIN_PITCH ≤ pitch note < MIN_PITCH + Z.of_nat NUM_PITCHES)%Z
  ∧ (0 ≤ quantizedStartStep note)%Z
  ∧ (quantizedEndStep note ≤ Z.of_nat numberOfSteps)%Z.

(** The shape [[numberOfSteps][NUM_PITCHES][4]]. *)
Definition shaped {A} (numberOfSteps : nat) (roll : Pianoroll A) : Prop :=
  length roll = numberOfSteps
  ∧ Forall (λ step, length step = NUM_PITCHES
                    ∧ Forall (λ row, length row = 4) step) roll.

(** The note [note] covers the cell [[s][p][v]]: its pitch is row [p], its
    instrument is voice [v], and step [s] lies in
    [[quantizedStartStep, quantizedEndStep)]. *)
Definition sounds (note : Note) (s p v : nat) : Prop :=
  pitch note = (Z.of_nat p + MIN_PITCH)%Z
  ∧ instrument note = Z.of_nat v
  ∧ (quantizedStartStep note ≤ Z.of_nat s < quantizedEndStep note)%Z.

#[export] Instance sounds_dec note s p v : Decision (sounds note s p v).
Proof. unfold sounds. apply _. Defined.

(** Every cell of the roll is 0 or 1. *)
Definition binary (roll : Pianoroll Z) : Prop :=
  ∀ s p v x, cell roll s p v = Some x → x = 0%Z ∨ x = 1%Z.

#[export] Instance validVoice_dec note : Decision (validVoice note).
Proof. unfold validVoice. apply _. Defined.

#[export] Instance inRange_dec numberOfSteps note :
  Decision (inRange numberOfSteps note).
Proof. unfold inRange. apply _. Defined.

End Coconet.

(** ** [midi_io.ts] *)

Module MidiIO.

(** *** The [NoteSequence] document *)

Module Tempo.
Record t : Type := mk { time : Q; qpm : Q }.
End Tempo.

Module TimeSignature.
Record t : Type := mk { time : Q; numerator : Z; denominator : Z }.
End TimeSignature.

Module SourceInfo.
Inductive Parser : Type := TONEJS_MIDI_CONVERT.
Inductive EncodingType : Type := MIDI.
Record t : Type := mk { parser : Parser; encodingType : EncodingType }.
End SourceInfo.

(** [INote]: the fields that [sequenceProtoToMidi] tests for absence or
    falsiness are options. *)
Module Note.
Record t : Type := mk {
  instrument : option Z;
  program : option Z;
  startTime : Q;
  endTime : Q;
  pitch : Z;
  velocity : option Z;
  isDrum : option bool;
}.
End Note.

(** [INoteSequence].  [tempos] and [timeSignatures] may be absent, which
    [sequenceProtoToMidi] treats like the empty array. *)
Record INoteSequence : Type := mkINoteSequence {
  ticksPerQuarter : option Z;
  sourceInfo : option SourceInfo.t;
  timeSignatures : option (list TimeSignature.t);
  tempos : option (list Tempo.t);
  notes : list Note.t;
  totalTime : Q;
}.

(** *** The structure exchanged with the MIDI codec

    [midiconvert.parse] produces it and [midiconvert.fromJSON] consumes it;
    both converters use the same property names. *)

Module MidiNote.
Record t : Type := mk { midi : Z; time : Q; duration : Q; velocity : Q }.
End MidiNote.

Module Track.
Record t : Type := mk {
  id : Z;
  notes : list MidiNote.t;
  isPercussion : bool;
  channelNumber : Z;
  instrumentNumber : Z;
}.
End Track.

Module Header.
Record t : Type := mk {
  bpm : Q;
  PPQ : Z;
  timeSignature : option (Z * Z);
}.
End Header.

Record MIDI : Type := mkMIDI {
  header : Header.t;
  tracks : list Track.t;
}.

(** *** Constants of [./constants] *)

(** Modelled from the spec: [constants.MIDI_VELOCITIES], defined in
    [core/constants.ts], a file outside the ones embedded here; the spec
    gives the rescaling as [floor(normalizedVelocity × 128)] and
    [(velocity + 1) / 128]. *)
Definition MIDI_VELOCITIES : Z := 128.

(** The other constants of [./constants] are fixed numbers whose values the
    converters do not depend on; they are parameters of the development. *)
Class Constants : Type := {
  DEFAULT_QUARTERS_PER_MINUTE : Q;
  DEFAULT_TICKS_PER_QUARTER : Z;
  DEFAULT_VELOCITY : Z;
  DEFAULT_PROGRAM : Z;
  DEFAULT_CHANNEL : Z;
  DRUM_CHANNEL : Z;
}.

(** One assignment of the constants, for concrete evaluations. *)
Definition sampleConstants : Constants :=
  {| DEFAULT_QUARTERS_PER_MINUTE := 120;
     DEFAULT_TICKS_PER_QUARTER := 220;
     DEFAULT_VELOCITY := 80;
     DEFAULT_PROGRAM := 0;
     DEFAULT_CHANNEL := 0;
     DRUM_CHANNEL := 9 |}.

(** *** [midiToSequenceProto] *)

(** The state the two nested loops update: the counter [instrumentNumber]
    and the sequence [ns] under construction. *)
Module ImportState.
Record t : Type := mk { instrumentNumber : Z; ns : INoteSequence }.
End ImportState.

(** [NoteSequence.create()]: repeated fields are empty arrays, numbers are
    zero. *)
Definition create : INoteSequence :=
  {| ticksPerQuarter := Some 0%Z;
     sourceInfo := None;
     timeSignatures := Some [];
     tempos := Some [];
     notes := [];
     totalTime := 0 |}.

(** [a.push(x)] on a field that [create] initialised. *)
Definition push {A} (a : option (list A)) (x : A) : option (list A) :=
  Some (default [] a ++ [x]).

(** [NoteSequence.Note.create({...})] in the inner loop. *)
Definition createNote (instrumentNumber : Z) (track : Track.t)
    (note : MidiNote.t) : Note.t :=
  let startTime := MidiNote.time note in
  let duration := MidiNote.duration note in
  let endTime := (startTime + duration)%Q in
  {| Note.instrument := Some instrumentNumber;
     Note.program := Some (Track.instrumentNumber track);
     Note.startTime := startTime;
     Note.endTime := endTime;
     Note.pitch := MidiNote.midi note;
     Note.velocity :=
       Some (Qfloor (MidiNote.velocity note * inject_Z MIDI_VELOCITIES));
     Note.isDrum := Some (Track.isPercussion track) |}.

(** The body of [for (const note of track.notes)]: push the note, then raise
    [totalTime] when the note ends later. *)
Definition importNote (track : Track.t) (st : ImportState.t)
    (note : MidiNote.t) : ImportState.t :=
  let endTime := (MidiNote.time note + MidiNote.duration note)%Q in
  let ns := ImportState.ns st in
  let ns :=
    {| ticksPerQuarter := ticksPerQuarter ns;
       sourceInfo := sourceInfo ns;
       timeSignatures := timeSignatures ns;
       tempos := tempos ns;
       notes :=
         notes ns ++ [createNote (ImportState.instrumentNumber st) track note];
       totalTime := totalTime ns |} in
  let ns :=
    if negb (Qle_bool endTime (totalTime ns)) then
      {| ticksPerQuarter := ticksPerQuarter ns;
         sourceInfo := sourceInfo ns;
         timeSignatures := timeSignatures ns;
         tempos := tempos ns;
         notes := notes ns;
         totalTime := endTime |}
    else ns in
  {| ImportState.instrumentNumber := ImportState.instrumentNumber st;
     ImportState.ns := ns |}.

(** The body of [for (const track of parsedMidi.tracks)]. *)
Definition importTrack (st : ImportState.t) (track : Track.t)
    : ImportState.t :=
  let st :=
    if bool_decide (0 < length (Track.notes track)) then
      {| ImportState.instrumentNumber := ImportState.instrumentNumber st + 1;
         ImportState.ns := ImportState.ns st |}
    else st in
  foldl (importNote track) st (Track.notes track).

(** [midiToSequenceProto], from the structure [midiconvert.parse] returns. *)
Definition midiToSequenceProto (parsedMidi : MIDI) : outcome INoteSequence :=
  let ns := create in
  let timeSignature :=
    match Header.timeSignature (header parsedMidi) with
    | Some (n, d) =>
        {| TimeSignature.time := 0;
           TimeSignature.numerator := n;
           TimeSignature.denominator := d |}
    | None =>
        {| TimeSignature.time := 0;
           TimeSignature.numerator := 4;
           TimeSignature.denominator := 4 |}
    end in
  let ns :=
    {| ticksPerQuarter := Some (Header.PPQ (header parsedMidi));
       sourceInfo :=
         Some {| SourceInfo.parser := SourceInfo.TONEJS_MIDI_CONVERT;
                 SourceInfo.encodingType := SourceInfo.MIDI |};
       timeSignatures := push (timeSignatures ns) timeSignature;
       tempos :=
         push (tempos ns)
              {| Tempo.time := 0;
                 Tempo.qpm := Header.bpm (header parsedMidi) |};
       notes := notes ns;
       totalTime := totalTime ns |} in
  let st :=
    foldl importTrack
          {| ImportState.instrumentNumber := -1; ImportState.ns := ns |}
          (tracks parsedMidi) in
  Returns (ImportState.ns st).

(** *** Notions used to state the properties of the importer *)

Definition nonEmpty (track : Track.t) : Prop := 0 < length (Track.notes track).

#[export] Instance nonEmpty_dec track : Decision (nonEmpty track).
Proof. unfold nonEmpty. apply _. Defined.

(** The number of tracks with at least one note among the first [j]. *)
Definition nonEmptyBefore (tracks : list Track.t) (j : nat) : nat :=
  length (filter nonEmpty (take j tracks)).

(** The end times [note.time + note.duration] of all notes of all tracks, in
    the order the loops visit them. *)
Definition endTimes (tracks : list Track.t) : list Q :=
  track ← tracks;
  (λ note, (MidiNote.time note + MidiNote.duration note)%Q)
    <$> Track.notes track.

(** Note times and durations of a parsed MIDI file are not negative. *)
Definition wellFormed (parsedMidi : MIDI) : Prop :=
  Forall (λ track,
    Forall (λ note, (0 <= MidiNote.time note)%Q
                    ∧ (0 <= MidiNote.duration note)%Q)
           (Track.notes track)) (tracks parsedMidi).

(** The value a variable holds after the updates
    [if (e > m) { m = e; }] for the successive [e] of [es]. *)
Definition runningMax (m : Q) (es : list Q) : Q :=
  foldl (λ m e, if negb (Qle_bool e m) then e else m) m es.

(** *** [sequenceProtoToMidi] *)

Section SequenceToMidi.
Context `{Constants}.

(** [!a || a.length === 0] *)
Definition missing {A} (a : option (list A)) : bool :=
  match a with
  | None | Some [] => true
  | Some (_ :: _) => false
  end.

(** The two assignments at the head of [sequenceProtoToMidi]; they are the
    only writes to the caller's object. *)
Definition applyDefaults (ns : INoteSequence) : INoteSequence :=
  let ns :=
    if missing (tempos ns) then
      {| ticksPerQuarter := ticksPerQuarter ns;
         sourceInfo := sourceInfo ns;
         timeSignatures := timeSignatures ns;
         tempos :=
           Some [ {| Tempo.time := 0;
                     Tempo.qpm := DEFAULT_QUARTERS_PER_MINUTE |} ];
         notes := notes ns;
         totalTime := totalTime ns |}
    else ns in
  if missing (timeSignatures ns) then
    {| ticksPerQuarter := ticksPerQuarter ns;
       sourceInfo := sourceInfo ns;
       timeSignatures :=
         Some [ {| TimeSignature.time := 0;
                   TimeSignature.numerator := 4;
                   TimeSignature.denominator := 4 |} ];
       tempos := tempos ns;
       notes := notes ns;
       totalTime := totalTime ns |}
  else ns.

(** [note.instrument ? note.instrument : 0]: an absent or zero instrument
    is 0. *)
Definition instrumentOf (note : Note.t) : Z :=
  match Note.instrument note with
  | Some i => if decide (i = 0%Z) then 0%Z else i
  | None => 0%Z
  end.

(** [for (const note of ns.notes)]: group the notes by instrument. *)
Definition groupNote (tracks : Map (list Note.t)) (note : Note.t)
    : Map (list Note.t) :=
  let instrument := instrumentOf note in
  let tracks :=
    if negb (mapHas tracks instrument) then mapSet tracks instrument []
    else tracks in
  mapSet tracks instrument (default [] (mapGet tracks instrument) ++ [note]).

(** [notes.map(note => ...)] *)
Definition exportNote (note : Note.t) : MidiNote.t :=
  let velocity := default DEFAULT_VELOCITY (Note.velocity note) in
  {| MidiNote.midi := Note.pitch note;
     MidiNote.time := Note.startTime note;
     MidiNote.duration := (Note.endTime note - Note.startTime note)%Q;
     MidiNote.velocity :=
       (inject_Z (velocity + 1) / inject_Z MIDI_VELOCITIES)%Q |}.

(** The object [track] built for instrument [i] from its notes, [note0]
    being [notes[0]]. *)
Definition makeTrack (i : nat) (note0 : Note.t) (notes : list Note.t)
    : Track.t :=
  {| Track.id := Z.of_nat i;
     Track.notes := exportNote <$> notes;
     Track.isPercussion := default false (Note.isDrum note0);
     Track.channelNumber :=
       if default false (Note.isDrum note0) then DRUM_CHANNEL
       else DEFAULT_CHANNEL;
     Track.instrumentNumber := default DEFAULT_PROGRAM (Note.program note0) |}.

(** The body of [for (let i = 0; i < instruments.length; i++)]; [json] is
    the array [json.tracks]. *)
Definition exportTrack (tracks : Map (list Note.t)) (instruments : list Z)
    (json : list Track.t) (i : nat) : outcome (list Track.t) :=
  if bool_decide (instruments !! i ≠ Some (Z.of_nat i)) then
    Throws (MidiConversionError
              "Instrument list must be continuous and start at 0")
  else
    match mapGet tracks (Z.of_nat i) with
    | Some ((note0 :: _) as notes) =>
        Returns (json ++ [makeTrack i note0 notes])
    | _ => Throws TypeError
    end.

(** The part of [sequenceProtoToMidi] after the defaulting; it only reads
    [ns]. *)
Definition exportValidated (ns : INoteSequence) : outcome MIDI :=
  match tempos ns, timeSignatures ns with
  | Some (tempo0 :: tempos'), Some (timeSignature0 :: timeSignatures') =>
      if bool_decide (length (tempo0 :: tempos') ≠ 1)
         || negb (Qeq_bool (Tempo.time tempo0) 0) then
        Throws (MidiConversionError
                  "NoteSequence must have exactly 1 tempo at time 0")
      else if bool_decide (length (timeSignature0 :: timeSignatures') ≠ 1)
              || negb (Qeq_bool (TimeSignature.time timeSignature0) 0) then
        Throws (MidiConversionError
                  "NoteSequence must have exactly 1 time signature at time 0")
      else
        let header :=
          {| Header.bpm := Tempo.qpm tempo0;
             Header.PPQ :=
               match ticksPerQuarter ns with
               | Some t => if decide (t = 0%Z) then DEFAULT_TICKS_PER_QUARTER
                           else t
               | None => DEFAULT_TICKS_PER_QUARTER
               end;
             Header.timeSignature :=
               Some (TimeSignature.numerator timeSignature0,
                     TimeSignature.denominator timeSignature0) |} in
        let tracks := foldl groupNote [] (notes ns) in
        let instruments := sort (mapKeys tracks) in
        json ← forEach (exportTrack tracks instruments)
                       (seq 0 (length instruments)) [];
        Returns {| header := header; tracks := json |}
  | _, _ => Throws TypeError
  end.

(** [sequenceProtoToMidi]: the caller's object after the call, and the
    structure handed to [midiconvert.fromJSON] (or the exception). *)
Definition sequenceProtoToMidi (ns : INoteSequence)
    : INoteSequence * outcome MIDI :=
  let ns := applyDefaults ns in
  (ns, exportValidated ns).

(** Export, hand the structure to the codec, parse it back. *)
Definition roundTrip (ns : INoteSequence) : outcome INoteSequence :=
  json ← (sequenceProtoToMidi ns).2; midiToSequenceProto json.

(** *** Notions used to state the properties of the round trip *)

(** The header the export builds from a sequence with one tempo and one
    time signature. *)
Definition exportedHeader (ns : INoteSequence) (tempo0 : Tempo.t)
    (timeSignature0 : TimeSignature.t) : Header.t :=
  {| Header.bpm := Tempo.qpm tempo0;
     Header.PPQ :=
       match ticksPerQuarter ns with
       | Some t => if decide (t = 0%Z) then DEFAULT_TICKS_PER_QUARTER else t
       | None => DEFAULT_TICKS_PER_QUARTER
       end;
     Header.timeSignature :=
       Some (TimeSignature.numerator timeSignature0,
             TimeSignature.denominator timeSignature0) |}.

(** The three messages of [MidiConversionError]. *)
Definition tempoError : error :=
  MidiConversionError "NoteSequence must have exactly 1 tempo at time 0".
Definition timeSignatureError : error :=
  MidiConversionError
    "NoteSequence must have exactly 1 time signature at time 0".
Definition instrumentError : error :=
  MidiConversionError "Instrument list must be continuous and start at 0".

(** What a MIDI note keeps when it is imported and exported again: pitch
    and time; the duration is recomputed from the end time, the velocity is
    quantised to [floor(128 v)] and rescaled. *)
Definition noteKept (note out : MidiNote.t) : Prop :=
  MidiNote.midi out = MidiNote.midi note
  ∧ MidiNote.time out = MidiNote.time note
  ∧ MidiNote.duration out
    = (MidiNote.time note + MidiNote.duration note - MidiNote.time note)%Q
  ∧ MidiNote.velocity out
    = (inject_Z (Qfloor (MidiNote.velocity note * inject_Z MIDI_VELOCITIES)
                 + 1)
       / inject_Z MIDI_VELOCITIES)%Q.

(** What a track keeps, as the [j]-th track of the exported structure. *)
Definition trackKept (j : nat) (track out : Track.t) : Prop :=
  Track.id out = Z.of_nat j
  ∧ Track.instrumentNumber out = Track.instrumentNumber track
  ∧ Track.isPercussion out = Track.isPercussion track
  ∧ Track.channelNumber out
    = (if Track.isPercussion track then DRUM_CHANNEL else DEFAULT_CHANNEL)
  ∧ Forall2 noteKept (Track.notes track) (Track.notes out).

(** Exactly one tempo and exactly one time signature, both at time 0. *)
Definition singleTempoAtZero (ns : INoteSequence) : Prop :=
  ∃ tempo0, tempos ns = Some [tempo0] ∧ (Tempo.time tempo0 == 0)%Q.

Definition singleTimeSignatureAtZero (ns : INoteSequence) : Prop :=
  ∃ timeSignature0,
    timeSignatures ns = Some [timeSignature0]
    ∧ (TimeSignature.time timeSignature0 == 0)%Q.

(** The notes of instrument [i], in their order in the sequence. *)
Definition group (i : Z) (notes : list Note.t) : list Note.t :=
  filter (λ note, instrumentOf note = i) notes.

(** The notes grouped by instrument, instruments [0], …, [k - 1] in this
    order. *)
Definition grouped (k : nat) (notes : list Note.t) : list Note.t :=
  mjoin ((λ i, group (Z.of_nat i) notes) <$> seq 0 k).





End SequenceToMidi.

(** *** A sequence with eleven instruments

    One tempo and one time signature, both at time 0, and eleven notes whose
    instruments are 0, 1, …, 10 in this order. *)

Definition noteOfInstrument (i : Z) : Note.t :=
  {| Note.instrument := Some i;
     Note.program := Some 0%Z;
     Note.startTime := 0;
     Note.endTime := 1;
     Note.pitch := 60;
     Note.velocity := Some 100%Z;
     Note.isDrum := Some false |}.

Definition elevenInstruments : INoteSequence :=
  {| ticksPerQuarter := Some 220%Z;
     sourceInfo := None;
     timeSignatures :=
       Some [ {| TimeSignature.time := 0;
                 TimeSignature.numerator := 4;
                 TimeSignature.denominator := 4 |} ];
     tempos := Some [ {| Tempo.time := 0; Tempo.qpm := 120 |} ];
     notes := noteOfInstrument <$> [0; 1; 2; 3; 4; 5; 6; 7; 8; 9; 10]%Z;
     totalTime := 1 |}.

End MidiIO.

(** * The configuration of [MidiMe] ([music_vae/midi_me.ts])

    Only the constructor is embedded: every other method of the class
    builds or runs a TensorFlow model. *)

Module MidiMe.

(** [MidiMeConfig]: every property is optional.  A number is a rational;
    [NaN], the other falsy number, is not represented. *)
Record MidiMeConfig : Type := mkMidiMeConfig {
  input_size : option Q;
  latent_size : option Q;
  encoder_layers : option (list Z);
  decoder_layers : option (list Z);
  beta : option Q;
  epochs : option Q;
}.

(** The object after the constructor: the field initialisers and
    [this.config]. *)
Record t : Type := mk {
  config : MidiMeConfig;
  trained : bool;
  initialized : bool;
}.

(** [x || d] for a number: [d] when [x] is [undefined] or zero. *)
Definition orNumber (x : option Q) (d : Q) : Q :=
  match x with
  | Some v => if Qeq_bool v 0 then d else v
  | None => d
  end.

(** [x || d] for an array: every array is truthy, the empty one too. *)
Definition orArray (x : option (list Z)) (d : list Z) : list Z :=
  match x with
  | Some a => a
  | None => d
  end.

(** [{}], the default value of the parameter. *)
Definition emptyConfig : MidiMeConfig :=
  {| input_size := None; latent_size := None; encoder_layers := None;
     decoder_layers := None; beta := None; epochs := None |}.

(** [constructor(config: MidiMeConfig = {})]; the argument is [None] when
    the caller passes none. *)
Definition constructor (config : option MidiMeConfig) : t :=
  let config := default emptyConfig config in
  {| config :=
       {| encoder_layers :=
            Some (orArray (encoder_layers config) [1024; 256; 64]%Z);
          decoder_layers :=
            Some (orArray (decoder_layers config) [64; 256; 1024]%Z);
          input_size := Some (orNumber (input_size config) 256);
          latent_size := Some (orNumber (latent_size config) 4);
          beta := Some (orNumber (beta config) 1);
          epochs := Some (orNumber (epochs config) 10) |};
     trained := false;
     initialized := false |}.

(** A property that is present and not zero. *)
Definition truthy (x : option Q) : Prop :=
  ∃ v, x = Some v ∧ ¬ (v == 0)%Q.

End MidiMe.

(** ** Properties of the flat-buffer reshape *)

Section FlatArray.
Import Coconet.
Context {A : Type}.
Implicit Types (flatArray : list A) (roll : Pianoroll A).

Lemma slice_lookup flatArray start v :
  v < 4 → slice start (start + 4) flatArray !! v = flatArray !! (start + v).
Proof.
  intros Hv. unfold slice.
  replace (start + 4 - start) with 4 by lia.
  rewrite lookup_take_lt by done. by rewrite lookup_drop.
Qed.

Lemma slice_length flatArray start :
  length (slice start (start + 4) flatArray)
  = 4 `min` (length flatArray - start).
Proof.
  unfold slice. rewrite length_take, length_drop.
  replace (start + 4 - start) with 4 by lia. done.
Qed.

Lemma slice_take flatArray start n :
  start + 4 ≤ n →
  slice start (start + 4) (take n flatArray)
  = slice start (start + 4) flatArray.
Proof.
  intros Hn. unfold slice. rewrite skipn_firstn_comm, take_take.
  f_equal. lia.
Qed.

(** The reshape as a function of positions: step [s] has [NUM_PITCHES]
    rows and row [p] of it is the slice starting at [s·46·4 + p·4]. *)
Lemma flatArrayToPianoroll_rows flatArray N :
  ∃ roll, flatArrayToPianoroll flatArray N = Returns roll
    ∧ length roll = N
    ∧ (∀ s step, roll !! s = Some step → length step = NUM_PITCHES)
    ∧ (∀ s p step row, roll !! s = Some step → step !! p = Some row →
         s < N ∧ p < NUM_PITCHES ∧
         row = slice (s * NUM_PITCHES * 4 + p * 4)
                     (s * NUM_PITCHES * 4 + p * 4 + 4) flatArray).
Proof.
  eexists; split; [reflexivity|]. split; [|split].
  - by rewrite length_fmap, length_seq.
  - intros s step Hs. apply list_lookup_fmap_Some in Hs as (i & -> & Hi).
    by rewrite length_fmap, length_seq.
  - intros s p step row Hs Hp.
    apply list_lookup_fmap_Some in Hs as (i & -> & Hi).
    apply lookup_seq in Hi as [-> ?].
    apply list_lookup_fmap_Some in Hp as (j & -> & Hj).
    apply lookup_seq in Hj as [-> ?]. done.
Qed.

Lemma flatArrayToPianoroll_cell flatArray N roll s p v :
  flatArrayToPianoroll flatArray N = Returns roll →
  s < N → p < NUM_PITCHES → v < 4 →
  cell roll s p v = flatArray !! (s * NUM_PITCHES * 4 + p * 4 + v).
Proof.
  intros Heq Hs Hp Hv.
  destruct (flatArrayToPianoroll_rows flatArray N)
    as (roll' & Hroll & HN & Hsteps & Hrows).
  rewrite Heq in Hroll. injection Hroll as <-.
  destruct (lookup_lt_is_Some_2 roll s) as [step Hstep]; [lia|].
  destruct (lookup_lt_is_Some_2 step p) as [row Hrow];
    [by rewrite (Hsteps _ _ Hstep)|].
  unfold cell. rewrite Hstep. simpl. rewrite Hrow. simpl.
  destruct (Hrows _ _ _ _ Hstep Hrow) as (_ & _ & ->).
  by apply slice_lookup.
Qed.

(** C6: on a buffer of length exactly [N × 46 × 4] the call returns a
    tensor of shape [[N][46][4]] whose cell [[s][p][v]] is the buffer
    element at [s·46·4 + p·4 + v], the row-major reshape. *)
Theorem flatArrayToPianoroll_row_major flatArray N :
  length flatArray = N * NUM_PITCHES * 4 →
  ∃ roll, flatArrayToPianoroll flatArray N = Returns roll
    ∧ length roll = N
    ∧ (∀ step, step ∈ roll →
         length step = NUM_PITCHES ∧ ∀ row, row ∈ step → length row = 4)
    ∧ (∀ s p v, s < N → p < NUM_PITCHES → v < 4 →
         ∃ x, cell roll s p v = Some x
            ∧ flatArray !! (s * NUM_PITCHES * 4 + p * 4 + v) = Some x).
Proof.
  intros Hlen.
  destruct (flatArrayToPianoroll_rows flatArray N)
    as (roll & Hroll & HN & Hsteps & Hrows).
  exists roll. split_and!; [done..| |].
  - intros step [s Hs]%list_elem_of_lookup. split; [by eapply Hsteps|].
    intros row [p Hp]%list_elem_of_lookup.
    destruct (Hrows _ _ _ _ Hs Hp) as (? & ? & ->).
    rewrite slice_length. unfold NUM_PITCHES in *. lia.
  - intros s p v Hs Hp Hv.
    rewrite (flatArrayToPianoroll_cell _ _ _ _ _ _ Hroll) by done.
    destruct (lookup_lt_is_Some_2 flatArray (s * NUM_PITCHES * 4 + p * 4 + v))
      as [x Hx]; [unfold NUM_PITCHES in *; lia|]. eauto.
Qed.

(** C2, as the code has it: the call never throws.  For every buffer it
    returns [N] steps of 46 rows, row [p] of step [s] being the slice
    [[s·46·4 + p·4, s·46·4 + p·4 + 4)] clipped to the buffer, so rows are
    short or empty when the buffer is shorter than [N × 46 × 4]; when the
    buffer has at least [N × 46 × 4] elements every row has four cells and
    the elements past [N × 46 × 4] do not influence the result. *)
Theorem flatArrayToPianoroll_never_throws flatArray N :
  ∃ roll, flatArrayToPianoroll flatArray N = Returns roll
    ∧ length roll = N
    ∧ (∀ s step, roll !! s = Some step → length step = NUM_PITCHES)
    ∧ (∀ s p step row, roll !! s = Some step → step !! p = Some row →
         row = slice (s * NUM_PITCHES * 4 + p * 4)
                     (s * NUM_PITCHES * 4 + p * 4 + 4) flatArray)
    ∧ (N * NUM_PITCHES * 4 ≤ length flatArray →
         (∀ s p step row, roll !! s = Some step → step !! p = Some row →
            length row = 4)
         ∧ flatArrayToPianoroll (take (N * NUM_PITCHES * 4) flatArray) N
           = Returns roll).
Proof.
  destruct (flatArrayToPianoroll_rows flatArray N)
    as (roll & Hroll & HN & Hsteps & Hrows).
  exists roll. split_and!; [done..| |].
  - intros s p step row Hs Hp. by destruct (Hrows _ _ _ _ Hs Hp) as (_&_&?).
  - intros Hlen. split.
    + intros s p step row Hs Hp.
      destruct (Hrows _ _ _ _ Hs Hp) as (? & ? & ->).
      rewrite slice_length. unfold NUM_PITCHES in *. lia.
    + rewrite <- Hroll. unfold flatArrayToPianoroll. f_equal.
      apply list_fmap_ext. intros ? s [-> Hs]%lookup_seq.
      apply list_fmap_ext. intros ? p [-> Hp]%lookup_seq. simpl.
      apply slice_take. unfold NUM_PITCHES in *. lia.
Qed.

End FlatArray.

(** C6 at the buffer [0, 1, …, 183] with one step. *)
Lemma flatArrayToPianoroll_row_major_witness :
  ∃ roll, Coconet.flatArrayToPianoroll (seq 0 184) 1 = Returns roll
    ∧ length roll = 1
    ∧ (∀ step, step ∈ roll →
         length step = Coconet.NUM_PITCHES
         ∧ ∀ row, row ∈ step → length row = 4)
    ∧ (∀ s p v, s < 1 → p < Coconet.NUM_PITCHES → v < 4 →
         ∃ x, Coconet.cell roll s p v = Some x
            ∧ seq 0 184 !! (s * Coconet.NUM_PITCHES * 4 + p * 4 + v) = Some x).
Proof. apply (flatArrayToPianoroll_row_major (seq 0 184) 1). reflexivity. Defined.

(** C2 as stated fails: the empty buffer is shorter than [1 × 46 × 4], and
    the call returns a tensor (one step of 46 empty rows) instead of
    throwing. *)
Lemma flatArrayToPianoroll_short_buffer_returns :
  length (@nil Z) < 1 * Coconet.NUM_PITCHES * 4
  ∧ Coconet.flatArrayToPianoroll (@nil Z) 1
    = Returns [replicate Coconet.NUM_PITCHES []]
  ∧ ¬ ∃ e, Coconet.flatArrayToPianoroll (@nil Z) 1 = Throws e.
Proof.
  split_and!; [unfold Coconet.NUM_PITCHES; simpl; lia|reflexivity|].
  intros [e He]. discriminate He.
Qed.

(** The amended C2 at a buffer of 200 elements and one step: the rows are
    full and the 16 trailing elements are ignored. *)
Lemma flatArrayToPianoroll_never_throws_witness :
  ∃ roll, Coconet.flatArrayToPianoroll (seq 0 200) 1 = Returns roll
    ∧ (∀ s p step row, roll !! s = Some step → step !! p = Some row →
         length row = 4)
    ∧ Coconet.flatArrayToPianoroll (seq 0 184) 1 = Returns roll.
Proof.
  destruct (flatArrayToPianoroll_never_throws (seq 0 200) 1)
    as (roll & Hroll & _ & _ & _ & Hlong).
  exists roll. split; [exact Hroll|].
  apply Hlong. unfold Coconet.NUM_PITCHES. simpl. lia.
Defined.

(** ** Facts about the run-time helpers *)

Section Helpers.
Context {A B : Type}.
Implicit Types (f : nat → A → list B) (xs : list A).

Lemma index_of_nat (l : list A) (i : nat) : index l (Z.of_nat i) = l !! i.
Proof.
  unfold index. destruct (Z.ltb_spec (Z.of_nat i) 0); [lia|].
  by rewrite Nat2Z.id.
Qed.

Lemma index_nonneg (l : list A) (i : Z) :
  (0 ≤ i)%Z → index l i = l !! Z.to_nat i.
Proof. intros Hi. unfold index. by destruct (Z.ltb_spec i 0); [lia|]. Qed.

Lemma index_negative (l : list A) (i : Z) : (i < 0)%Z → index l i = None.
Proof. intros Hi. unfold index. by destruct (Z.ltb_spec i 0); [|lia]. Qed.

Lemma index_last (l : list A) : index l (Z.of_nat (length l) - 1) = last l.
Proof.
  rewrite last_lookup. destruct l as [|x l]; [done|].
  rewrite index_nonneg by (simpl; lia). f_equal. simpl. lia.
Qed.


Lemma collect_cons f x xs : collect f (x :: xs) = f 0 x ++ collect (f ∘ S) xs.
Proof. done. Qed.

Lemma collect_app f xs1 xs2 :
  collect f (xs1 ++ xs2)
  = collect f xs1 ++ collect (λ i, f (length xs1 + i)) xs2.
Proof. unfold collect. by rewrite imap_app, join_app. Qed.

Lemma elem_of_collect f xs y :
  y ∈ collect f xs ↔ ∃ i x, xs !! i = Some x ∧ y ∈ f i x.
Proof.
  unfold collect. rewrite list_elem_of_join. split.
  - intros (ys & Hy & Hys).
    apply elem_of_lookup_imap in Hys as (i & x & -> & Hx). eauto.
  - intros (i & x & Hx & Hy). exists (f i x). split; [done|].
    by apply elem_of_lookup_imap_2.
Qed.

Lemma collect_empty f xs :
  (∀ i x, xs !! i = Some x → f i x = []) → collect f xs = [].
Proof.
  intros Hf. destruct (collect f xs) as [|y ys] eqn:Heq; [done|].
  assert (y ∈ collect f xs) as Hy by (rewrite Heq; left).
  apply elem_of_collect in Hy as (i & x & Hx & Hy).
  rewrite (Hf _ _ Hx) in Hy. by apply elem_of_nil in Hy.
Qed.

(** Overwriting one element of a list whose elements all contribute
    nothing leaves exactly the contribution of the new element. *)
Lemma collect_insert_only f xs i y :
  (∀ j x, xs !! j = Some x → f j x = []) → i < length xs →
  collect f (<[i:=y]> xs) = f i y.
Proof.
  intros Hf Hi. rewrite insert_take_drop by done.
  rewrite collect_app, collect_cons.
  rewrite length_take, Nat.min_l by lia.
  rewrite !collect_empty.
  - simpl. rewrite Nat.add_0_r. apply app_nil_r.
  - intros j x Hj. simpl. rewrite lookup_drop in Hj.
    replace (i + S j) with (S i + j) by lia. eauto.
  - intros j x Hj. apply lookup_take_Some in Hj as [Hj _]. eauto.
Qed.

End Helpers.

(** ** Decoding a pianoroll *)

Section Decode.
Import Coconet.
Implicit Types (pianoroll roll : Pianoroll Z) (note : Note).

(** The emitted notes are exactly the notes of the active cells. *)
Lemma elem_of_emittedNotes pianoroll note :
  note ∈ emittedNotes pianoroll
  ↔ ∃ s p v, cell pianoroll s p v = Some 1%Z ∧ note = noteAt s p v.
Proof.
  unfold emittedNotes, stepNotes, cell. rewrite elem_of_collect. split.
  - intros (s & step & Hs & Hn).
    apply elem_of_collect in Hn as (p & row & Hp & Hn).
    apply elem_of_collect in Hn as (v & value & Hv & Hn).
    destruct (Z.eqb_spec value 1) as [->|]; [|by apply elem_of_nil in Hn].
    apply list_elem_of_singleton in Hn as ->. exists s, p, v.
    rewrite Hs. simpl. rewrite Hp. simpl. by rewrite Hv.
  - intros (s & p & v & Hc & ->).
    destruct (pianoroll !! s) as [step|] eqn:Hs; [|done]. simpl in Hc.
    destruct (step !! p) as [row|] eqn:Hp; [|done]. simpl in Hc.
    exists s, step. split; [done|].
    apply elem_of_collect. exists p, row. split; [done|].
    apply elem_of_collect. exists v, 1%Z. split; [done|]. simpl. left.
Qed.

Lemma emittedNotes_empty pianoroll :
  (∀ s p v x, cell pianoroll s p v = Some x → x ≠ 1%Z) →
  emittedNotes pianoroll = [].
Proof.
  intros Hcells. destruct (emittedNotes pianoroll) as [|note l] eqn:Heq; [done|].
  assert (note ∈ emittedNotes pianoroll) as Hn by (rewrite Heq; left).
  apply elem_of_emittedNotes in Hn as (s & p & v & Hc & _).
  by destruct (Hcells _ _ _ _ Hc).
Qed.

(** C10: without an active cell no note is emitted, the read of
    [notes[notes.length - 1]] is out of bounds and the call throws a
    [TypeError] instead of returning a sequence; with an active cell the
    read is in bounds, the call returns the emitted notes, and
    [totalQuantizedSteps] is the end step of the last of them. *)
Theorem pianorollToSequence_needs_active_cell pianoroll :
  ((∀ s p v x, cell pianoroll s p v = Some x → x ≠ 1%Z) →
     emittedNotes pianoroll = []
     ∧ index (emittedNotes pianoroll)
             (Z.of_nat (length (emittedNotes pianoroll)) - 1) = None
     ∧ pianorollToSequence pianoroll = Throws TypeError)
  ∧ ((∃ s p v, cell pianoroll s p v = Some 1%Z) →
     ∃ ns lastNote,
       pianorollToSequence pianoroll = Returns ns
       ∧ notes ns = emittedNotes pianoroll
       ∧ index (notes ns) (Z.of_nat (length (notes ns)) - 1) = Some lastNote
       ∧ last (notes ns) = Some lastNote
       ∧ totalQuantizedSteps ns = quantizedEndStep lastNote).
Proof.
  split.
  - intros Hnone%emittedNotes_empty. unfold pianorollToSequence.
    by rewrite Hnone.
  - intros (s & p & v & Hc).
    assert (noteAt s p v ∈ emittedNotes pianoroll) as Hin
      by (apply elem_of_emittedNotes; eauto).
    unfold pianorollToSequence. rewrite index_last.
    destruct (last (emittedNotes pianoroll)) as [lastNote|] eqn:Hlast.
    + eexists _, lastNote. split; [done|]. simpl.
      by rewrite index_last.
    + apply last_None in Hlast. rewrite Hlast in Hin.
      by apply elem_of_nil in Hin.
Qed.

End Decode.

(** C10 at two tensors: one step of 46 rows of zeros, and the one-cell
    tensor [[[[1]]]]. *)
Lemma pianorollToSequence_needs_active_cell_witness :
  Coconet.pianorollToSequence (Coconet.buildEmptyPianoroll 1) = Throws TypeError
  ∧ ∃ ns lastNote,
      Coconet.pianorollToSequence [[[1%Z]]] = Returns ns
      ∧ last (Coconet.notes ns) = Some lastNote
      ∧ Coconet.totalQuantizedSteps ns = Coconet.quantizedEndStep lastNote.
Proof.
  split.
  - apply (pianorollToSequence_needs_active_cell (Coconet.buildEmptyPianoroll 1)).
    intros s p v x Hc.
    destruct s as [|s]; [|done].
    do 46 (destruct p as [|p];
           [do 4 (destruct v as [|v]; [by injection Hc as <-|]); done|]).
    done.
  - destruct (pianorollToSequence_needs_active_cell [[[1%Z]]]) as [_ Hsome].
    destruct Hsome as (ns & lastNote & Hret & _ & _ & Hlast & Htotal).
    + by exists 0, 0, 0.
    + by exists ns, lastNote.
Defined.

(** Closes a goal about the ranges of a concrete note. *)
Ltac range_facts :=
  unfold Coconet.validVoice, Coconet.inRange, Coconet.MIN_PITCH,
    Coconet.NUM_PITCHES; simpl; lia.

(** ** Encoding a sequence into a pianoroll *)

Section Encode.
Import Coconet.
Implicit Types (roll : Pianoroll Z) (note : Note) (ns : NoteSequence).

Lemma forEach_app {A S} (body : S → A → outcome S) (xs ys : list A) (s : S) :
  forEach body (xs ++ ys) s = s' ← forEach body xs s; forEach body ys s'.
Proof.
  revert s. induction xs as [|x xs IH]; intros s; [done|].
  simpl. destruct (body s x); simpl; [apply IH|done].
Qed.

(** The inner loop of [buildEmptyPianoroll] leaves by its test, with 46
    rows, whatever fuel remains. *)
Lemma pushRows_exits (extra : nat) :
  pushRows (NUM_PITCHES + extra) [] = replicate NUM_PITCHES [0; 0; 0; 0]%Z.
Proof. reflexivity. Qed.

Lemma buildEmptyPianoroll_replicate N :
  buildEmptyPianoroll N = replicate N (replicate NUM_PITCHES [0; 0; 0; 0]%Z).
Proof.
  unfold buildEmptyPianoroll.
  rewrite <- (pushRows_exits 0), Nat.add_0_r.
  generalize (pushRows NUM_PITCHES []) as step. intros step.
  generalize 0 as start.
  induction N as [|N IH]; intros start; [done|].
  simpl. f_equal. apply IH.
Qed.

Lemma buildEmptyPianoroll_shaped N : shaped N (buildEmptyPianoroll N).
Proof.
  rewrite buildEmptyPianoroll_replicate. split; [apply length_replicate|].
  apply Forall_replicate. split; [apply length_replicate|].
  by apply Forall_replicate.
Qed.

Lemma setCell_in_range roll (i p v : nat) step row :
  roll !! i = Some step → step !! p = Some row →
  setCell roll (Z.of_nat i) (Z.of_nat p) (Z.of_nat v)
  = Returns (<[i := <[p := <[v := 1%Z]> row]> step]> roll).
Proof.
  intros Hi Hp. unfold setCell.
  rewrite index_of_nat, Hi. simpl. rewrite index_of_nat, Hp. simpl.
  by rewrite !Nat2Z.id.
Qed.

Lemma setCell_shaped N roll (i pitchIndex voice : Z) :
  shaped N roll → (0 ≤ i < Z.of_nat N)%Z →
  (0 ≤ pitchIndex < Z.of_nat NUM_PITCHES)%Z →
  ∃ roll', setCell roll i pitchIndex voice = Returns roll' ∧ shaped N roll'.
Proof.
  intros [Hlen Hsteps] Hi Hp. unfold setCell.
  destruct (lookup_lt_is_Some_2 roll (Z.to_nat i)) as [step Hstep]; [lia|].
  rewrite index_nonneg, Hstep by lia. simpl.
  destruct (Forall_lookup_1 _ _ _ _ Hsteps Hstep) as [Hrows Hcells].
  destruct (lookup_lt_is_Some_2 step (Z.to_nat pitchIndex)) as [row Hrow];
    [lia|].
  rewrite index_nonneg, Hrow by lia. eexists; split; [done|].
  split; [by rewrite length_insert|].
  apply Forall_insert; [done|]. split; [by rewrite length_insert|].
  apply Forall_insert; [done|]. rewrite length_insert.
  by apply (Forall_lookup_1 _ _ _ _ Hcells Hrow).
Qed.

Lemma fill_shaped N roll (stepIndex pitchIndex voice : Z) (ks : list nat) :
  shaped N roll →
  (0 ≤ pitchIndex < Z.of_nat NUM_PITCHES)%Z →
  Forall (λ k, 0 ≤ stepIndex + Z.of_nat k < Z.of_nat N)%Z ks →
  ∃ roll',
    forEach (λ roll k, setCell roll (stepIndex + Z.of_nat k) pitchIndex voice)
            ks roll = Returns roll'
    ∧ shaped N roll'.
Proof.
  intros Hroll Hp Hks. revert roll Hroll.
  induction Hks as [|k ks Hk _ IH]; intros roll Hroll; [by exists roll|].
  simpl.
  destruct (setCell_shaped N roll (stepIndex + Z.of_nat k) pitchIndex voice)
    as (roll1 & -> & Hroll1); [done..|].
  simpl. by apply IH.
Qed.

Lemma encodeNote_invalid roll note :
  ¬ validVoice note →
  encodeNote roll note
  = Throws (Error ("Found invalid voice " ++ toString (instrument note)
                   ++ ". Skipping.")).
Proof.
  intros Hv. unfold encodeNote, validVoice in *.
  rewrite bool_decide_eq_true_2; [done|lia].
Qed.

Lemma encodeNote_shaped N roll note :
  shaped N roll → validVoice note → inRange N note →
  ∃ roll', encodeNote roll note = Returns roll' ∧ shaped N roll'.
Proof.
  intros Hroll Hv (Hp & Hs & He). unfold encodeNote, validVoice in *.
  rewrite bool_decide_eq_false_2 by lia.
  apply fill_shaped; [done|unfold MIN_PITCH in *; lia|].
  apply Forall_forall. intros k Hk%elem_of_seq. lia.
Qed.

(** C4, as the code has it.  A note whose instrument is outside [[0, 3]]
    makes the call throw, so no tensor is returned; when every note before
    the first such note has its voice, pitch and steps in range, the
    exception is the [Error] whose message names that note's instrument;
    when all notes have voice, pitch and steps in range, the call returns a
    tensor of shape [[N][46][4]]. *)
Theorem sequenceToPianoroll_voice_check ns N :
  ((∃ note, note ∈ notes ns ∧ ¬ validVoice note) →
     ∃ e, sequenceToPianoroll ns N = Throws e)
  ∧ (∀ before note after,
       notes ns = before ++ note :: after →
       Forall (λ n, validVoice n ∧ inRange N n) before →
       ¬ validVoice note →
       sequenceToPianoroll ns N
       = Throws (Error ("Found invalid voice " ++ toString (instrument note)
                        ++ ". Skipping.")))
  ∧ (Forall (λ n, validVoice n ∧ inRange N n) (notes ns) →
       ∃ roll, sequenceToPianoroll ns N = Returns roll ∧ shaped N roll).
Proof.
  unfold sequenceToPianoroll.
  assert (∀ l roll, shaped N roll →
            Forall (λ n, validVoice n ∧ inRange N n) l →
            ∃ roll', forEach encodeNote l roll = Returns roll'
                     ∧ shaped N roll') as Hok.
  { intros l roll Hroll Hl. revert roll Hroll.
    induction Hl as [|n l [Hv Hr] _ IH]; intros roll Hroll; [by exists roll|].
    simpl. destruct (encodeNote_shaped N roll n) as (roll1 & -> & Hroll1);
      [done..|]. simpl. by apply IH. }
  split_and!.
  - intros (note & Hin & Hbad).
    generalize (buildEmptyPianoroll N) as roll.
    induction (notes ns) as [|n l IH]; intros roll;
      [by apply elem_of_nil in Hin|].
    simpl. destruct (encodeNote roll n) as [roll1|e] eqn:He;
      simpl; [|by exists e].
    apply elem_of_cons in Hin as [->|Hin]; [|by apply IH].
    by rewrite encodeNote_invalid in He.
  - intros before note after -> Hbefore Hbad.
    rewrite forEach_app.
    destruct (Hok before _ (buildEmptyPianoroll_shaped N) Hbefore)
      as (roll1 & -> & _).
    simpl. by rewrite encodeNote_invalid.
  - intros Hall. apply Hok; [apply buildEmptyPianoroll_shaped|done].
Qed.

End Encode.

(** C4 as stated fails: the second note below has instrument 4, but the
    first one has pitch 0, its row index [-36] is out of range, and the write
    [pianoroll[0][-36][0] = 1] raises a [TypeError] before the voice of the
    second note is looked at. *)
Lemma sequenceToPianoroll_other_error_first :
  let ns := {| Coconet.notes := [Coconet.mkNote 0 0 0 1; Coconet.mkNote 60 4 0 1];
               Coconet.totalQuantizedSteps := 1 |} in
  (∃ note, note ∈ Coconet.notes ns
           ∧ ¬ (0 ≤ Coconet.instrument note ≤ 3)%Z)
  ∧ Coconet.sequenceToPianoroll ns 1 = Throws TypeError
  ∧ Coconet.sequenceToPianoroll ns 1
    ≠ Throws (Error "Found invalid voice 4. Skipping.").
Proof.
  split_and!.
  - exists (Coconet.mkNote 60 4 0 1). split; [|simpl; lia].
    right. left.
  - reflexivity.
  - discriminate.
Qed.

(** The amended C4 at three sequences over four steps: a lone note of
    voice 4; an in-range note followed by a note of voice 5; two in-range
    notes. *)
Lemma sequenceToPianoroll_voice_check_witness :
  (∃ e, Coconet.sequenceToPianoroll
          {| Coconet.notes := [Coconet.mkNote 60 4 0 1];
             Coconet.totalQuantizedSteps := 1 |} 4 = Throws e)
  ∧ Coconet.sequenceToPianoroll
      {| Coconet.notes := [Coconet.mkNote 60 1 0 2; Coconet.mkNote 62 5 2 3];
         Coconet.totalQuantizedSteps := 3 |} 4
    = Throws (Error "Found invalid voice 5. Skipping.")
  ∧ ∃ roll, Coconet.sequenceToPianoroll
              {| Coconet.notes := [Coconet.mkNote 60 1 0 2;
                                   Coconet.mkNote 62 3 2 4];
                 Coconet.totalQuantizedSteps := 4 |} 4 = Returns roll
            ∧ Coconet.shaped 4 roll.
Proof.
  split_and!.
  - apply (sequenceToPianoroll_voice_check
             {| Coconet.notes := [Coconet.mkNote 60 4 0 1];
                Coconet.totalQuantizedSteps := 1 |} 4).
    exists (Coconet.mkNote 60 4 0 1). split; [left|]. range_facts.
  - destruct (sequenceToPianoroll_voice_check
                {| Coconet.notes := [Coconet.mkNote 60 1 0 2;
                                     Coconet.mkNote 62 5 2 3];
                   Coconet.totalQuantizedSteps := 3 |} 4)
      as (_ & Hfirst & _).
    apply (Hfirst [Coconet.mkNote 60 1 0 2] (Coconet.mkNote 62 5 2 3) []).
    + reflexivity.
    + apply Forall_cons. split; [range_facts|apply Forall_nil_2].
    + range_facts.
  - apply (sequenceToPianoroll_voice_check
             {| Coconet.notes := [Coconet.mkNote 60 1 0 2;
                                  Coconet.mkNote 62 3 2 4];
                Coconet.totalQuantizedSteps := 4 |} 4).
    repeat (apply Forall_cons; split; [range_facts|]). apply Forall_nil_2.
Defined.

(** ** Encoding then decoding one held note *)

Section RoundTrip.
Import Coconet.
Implicit Types (roll : Pianoroll Z) (step : list (list Z)).

Lemma outcome_bind_Returns {A} (o : outcome A) : (a ← o; Returns a) = o.
Proof. by destruct o. Qed.

Lemma outcome_bind_apply {A B} (a : A) (k : A → outcome B) :
  Returns a ≫= k = k a.
Proof. done. Qed.

(** Three consecutive steps of a constant roll overwritten with the same
    step. *)
Lemma insert_three {X} (E M : X) (s r : nat) :
  <[s + 2 := M]> (<[s + 1 := M]> (<[s := M]> (replicate (s + 3 + r) E)))
  = replicate s E ++ [M; M; M] ++ replicate r E.
Proof. induction s as [|s IH]; [done|]. simpl. by rewrite IH. Qed.

Lemma stepNotes_empty (stepIndex : nat) :
  stepNotes stepIndex (replicate NUM_PITCHES [0; 0; 0; 0]%Z) = [].
Proof.
  apply collect_empty. by intros p row [-> _]%lookup_replicate.
Qed.

Lemma stepNotes_marked (stepIndex pitchIndex voice : nat) :
  pitchIndex < NUM_PITCHES → voice < 4 →
  stepNotes stepIndex
    (<[pitchIndex := <[voice := 1%Z]> [0; 0; 0; 0]%Z]>
       (replicate NUM_PITCHES [0; 0; 0; 0]%Z))
  = [noteAt stepIndex pitchIndex voice].
Proof.
  intros Hp Hv. unfold stepNotes.
  rewrite collect_insert_only; [|..|by rewrite length_replicate].
  - rewrite collect_insert_only; [done| |simpl; lia].
    intros j x Hj. do 4 (destruct j as [|j]; [by injection Hj as <-|]). done.
  - by intros j x [-> _]%lookup_replicate.
Qed.

(** C5: a note held for three steps, with pitch, voice and steps in range,
    is encoded and decoded into exactly three one-step notes at the
    consecutive steps [s], [s + 1], [s + 2], all with the pitch and the
    instrument of the original note. *)
Theorem pianoroll_round_trip_splits_held_note (p v s t : Z) (numSteps : nat) :
  (MIN_PITCH ≤ p < MIN_PITCH + Z.of_nat NUM_PITCHES)%Z →
  (0 ≤ v ≤ 3)%Z →
  (0 ≤ s)%Z → (s + 3 ≤ Z.of_nat numSteps)%Z →
  (roll ← sequenceToPianoroll
            {| notes := [mkNote p v s (s + 3)]; totalQuantizedSteps := t |}
            numSteps;
   pianorollToSequence roll)
  = Returns {| notes := [mkNote p v s (s + 1);
                         mkNote p v (s + 1) (s + 2);
                         mkNote p v (s + 2) (s + 3)];
               totalQuantizedSteps := s + 3 |}.
Proof.
  intros Hp Hv Hs HN.
  set (pi := Z.to_nat (p - MIN_PITCH)). set (vi := Z.to_nat v).
  set (si := Z.to_nat s). set (r := numSteps - si - 3).
  set (E := replicate NUM_PITCHES [0; 0; 0; 0]%Z).
  set (M := <[pi := <[vi := 1%Z]> [0; 0; 0; 0]%Z]> E).
  assert (pi < NUM_PITCHES) as Hpi by (unfold MIN_PITCH in *; lia).
  assert (vi < 4) as Hvi by lia.
  assert (E !! pi = Some [0; 0; 0; 0]%Z) as HE
    by by apply lookup_replicate_2.
  assert (sequenceToPianoroll
            {| notes := [mkNote p v s (s + 3)]; totalQuantizedSteps := t |}
            numSteps
          = Returns (replicate si E ++ [M; M; M] ++ replicate r E)) as ->.
  { unfold sequenceToPianoroll. simpl. rewrite outcome_bind_Returns.
    rewrite buildEmptyPianoroll_replicate. fold E.
    unfold encodeNote. simpl.
    rewrite bool_decide_eq_false_2 by lia.
    replace (s + 3 - s)%Z with 3%Z by lia. simpl.
    replace (p - MIN_PITCH)%Z with (Z.of_nat pi) by lia.
    replace v with (Z.of_nat vi) by lia.
    replace (s + Z.of_nat 0)%Z with (Z.of_nat si) by lia.
    replace (s + Z.of_nat 1)%Z with (Z.of_nat (si + 1)) by lia.
    replace (s + Z.of_nat 2)%Z with (Z.of_nat (si + 2)) by lia.
    replace numSteps with (si + 3 + r) by lia.
    erewrite setCell_in_range; [|by apply lookup_replicate_2; lia|done].
    simpl.
    erewrite setCell_in_range; [|..|done]; last first.
    { rewrite list_lookup_insert_ne by lia. apply lookup_replicate_2. lia. }
    simpl.
    erewrite setCell_in_range; [|..|done]; last first.
    { rewrite !list_lookup_insert_ne by lia. apply lookup_replicate_2. lia. }
    simpl. fold M. by rewrite insert_three. }
  assert (emittedNotes (replicate si E ++ [M; M; M] ++ replicate r E)
          = [noteAt (si + 0) pi vi; noteAt (si + 1) pi vi;
             noteAt (si + 2) pi vi]) as Hnotes.
  { unfold emittedNotes.
    rewrite collect_app, collect_empty
      by (intros i x [-> _]%lookup_replicate; apply stepNotes_empty).
    rewrite length_replicate. change ([M; M; M] ++ replicate r E)
      with (M :: M :: M :: replicate r E).
    rewrite !collect_cons, collect_empty
      by (intros i x [-> _]%lookup_replicate; apply stepNotes_empty).
    unfold compose. subst M E. by rewrite !stepNotes_marked by done. }
  rewrite outcome_bind_apply.
  unfold pianorollToSequence. rewrite Hnotes. simpl.
  unfold noteAt, MIN_PITCH in *.
  replace (Z.of_nat pi + 36)%Z with p by lia.
  replace (Z.of_nat vi) with v by lia.
  replace (Z.of_nat (si + 0)) with s by lia.
  replace (Z.of_nat (si + 1)) with (s + 1)%Z by lia.
  replace (Z.of_nat (si + 2)) with (s + 2)%Z by lia.
  replace (s + 1 + 1)%Z with (s + 2)%Z by lia.
  by replace (s + 2 + 1)%Z with (s + 3)%Z by lia.
Qed.

End RoundTrip.

(** C5 at pitch 60, voice 2, start step 1, in a roll of five steps. *)
Lemma pianoroll_round_trip_splits_held_note_witness :
  (roll ← Coconet.sequenceToPianoroll
            {| Coconet.notes := [Coconet.mkNote 60 2 1 4];
               Coconet.totalQuantizedSteps := 4 |} 5;
   Coconet.pianorollToSequence roll)
  = Returns {| Coconet.notes := [Coconet.mkNote 60 2 1 2;
                                 Coconet.mkNote 60 2 2 3;
                                 Coconet.mkNote 60 2 3 4];
               Coconet.totalQuantizedSteps := 4 |}.
Proof.
  apply (pianoroll_round_trip_splits_held_note 60 2 1 4 5); range_facts.
Defined.

(** ** Importing a parsed MIDI structure *)

Section ImportFacts.
Import MidiIO.
Implicit Types (st : ImportState.t) (track : Track.t) (tracks : list Track.t).

Lemma runningMax_ge (m : Q) (es : list Q) :
  (m <= runningMax m es)%Q ∧ Forall (λ e, (e <= runningMax m es)%Q) es.
Proof.
  revert m. induction es as [|e es IH]; intros m.
  { split; [apply Qle_refl|constructor]. }
  simpl. destruct (Qle_bool e m) eqn:Hem; simpl.
  - apply Qle_bool_iff in Hem. destruct (IH m) as [Hm Hes].
    split; [done|]. constructor; [|done]. by eapply Qle_trans.
  - assert (m < e)%Q as Hlt.
    { apply Qnot_le_lt. intros Hle%Qle_bool_iff. congruence. }
    destruct (IH e) as [He Hes]. split; [|by constructor].
    eapply Qle_trans; [|done]. by apply Qlt_le_weak.
Qed.

Lemma runningMax_attained (m : Q) (es : list Q) :
  runningMax m es = m ∨ runningMax m es ∈ es.
Proof.
  revert m. induction es as [|e es IH]; intros m; [by left|].
  simpl. destruct (Qle_bool e m); simpl.
  - destruct (IH m) as [->|Hin]; [by left|right; by right].
  - destruct (IH e) as [->|Hin]; right; [left|by right].
Qed.

Lemma runningMax_app (m : Q) (es1 es2 : list Q) :
  runningMax m (es1 ++ es2) = runningMax (runningMax m es1) es2.
Proof. apply foldl_app. Qed.

(** The inner loop leaves the counter alone, appends one note per MIDI
    note, and updates [totalTime] with every end time. *)
Lemma importNotes_state track st (midiNotes : list MidiNote.t) :
  let st' := foldl (importNote track) st midiNotes in
  ImportState.instrumentNumber st' = ImportState.instrumentNumber st
  ∧ notes (ImportState.ns st')
    = notes (ImportState.ns st)
      ++ (createNote (ImportState.instrumentNumber st) track <$> midiNotes)
  ∧ totalTime (ImportState.ns st')
    = runningMax (totalTime (ImportState.ns st))
        ((λ note, (MidiNote.time note + MidiNote.duration note)%Q)
           <$> midiNotes).
Proof.
  revert st. induction midiNotes as [|note midiNotes IH]; intros st; simpl.
  { by rewrite app_nil_r. }
  destruct (IH (importNote track st note)) as (Hk & Hnotes & Htotal).
  rewrite Hk, Hnotes, Htotal. unfold importNote. simpl.
  destruct (Qle_bool _ _); simpl; by rewrite <- app_assoc.
Qed.

Lemma importTrack_state st track :
  let k := (if bool_decide (nonEmpty track)
            then ImportState.instrumentNumber st + 1
            else ImportState.instrumentNumber st)%Z in
  ImportState.instrumentNumber (importTrack st track) = k
  ∧ notes (ImportState.ns (importTrack st track))
    = notes (ImportState.ns st) ++ (createNote k track <$> Track.notes track)
  ∧ totalTime (ImportState.ns (importTrack st track))
    = runningMax (totalTime (ImportState.ns st)) (endTimes [track]).
Proof.
  unfold importTrack, nonEmpty, endTimes. simpl. rewrite app_nil_r.
  destruct (bool_decide _).
  - exact (importNotes_state track
             {| ImportState.instrumentNumber :=
                  ImportState.instrumentNumber st + 1;
                ImportState.ns := ImportState.ns st |} (Track.notes track)).
  - exact (importNotes_state track st (Track.notes track)).
Qed.

Lemma nonEmptyBefore_cons track tracks j :
  nonEmptyBefore (track :: tracks) (S j)
  = (if bool_decide (nonEmpty track) then 1 else 0) + nonEmptyBefore tracks j.
Proof.
  unfold nonEmptyBefore. simpl. rewrite filter_cons.
  case_bool_decide; by destruct (decide _).
Qed.

(** The outer loop, from any state: the track at position [j] gets the
    counter's start value plus one plus the number of tracks with notes
    before it. *)
Lemma importTracks_state st tracks :
  let st' := foldl importTrack st tracks in
  notes (ImportState.ns st')
  = notes (ImportState.ns st)
    ++ mjoin (imap (λ j track,
         createNote (ImportState.instrumentNumber st + 1
                     + Z.of_nat (nonEmptyBefore tracks j)) track
           <$> Track.notes track) tracks)
  ∧ totalTime (ImportState.ns st')
    = runningMax (totalTime (ImportState.ns st)) (endTimes tracks).
Proof.
  revert st. induction tracks as [|track tracks IH]; intros st; simpl.
  { by rewrite app_nil_r. }
  destruct (IH (importTrack st track)) as (Hnotes & Htotal).
  destruct (importTrack_state st track) as (Hk & Hn1 & Ht1).
  rewrite Hnotes, Htotal, Hn1, Ht1, Hk. split.
  - rewrite <- app_assoc. f_equal. f_equal.
    + unfold nonEmptyBefore. simpl.
      change (Z.of_nat 0) with 0%Z. rewrite Z.add_0_r.
      clear. case_bool_decide as Hne; [done|]. unfold nonEmpty in Hne.
      by destruct (Track.notes track); [|simpl in Hne; lia].
    + f_equal. apply imap_ext. intros j t _. simpl.
      rewrite nonEmptyBefore_cons. do 2 f_equal.
      case_bool_decide; lia.
  - unfold endTimes. simpl. rewrite app_nil_r. by rewrite runningMax_app.
Qed.

Lemma midiToSequenceProto_returns parsedMidi :
  ∃ ns, midiToSequenceProto parsedMidi = Returns ns
    ∧ notes ns
      = mjoin (imap (λ j track,
          createNote (Z.of_nat (nonEmptyBefore (tracks parsedMidi) j)) track
            <$> Track.notes track) (tracks parsedMidi))
    ∧ totalTime ns = runningMax 0 (endTimes (tracks parsedMidi)).
Proof.
  eexists. split; [reflexivity|].
  match goal with
  | |- context [foldl importTrack ?st0 _] =>
      destruct (importTracks_state st0 (tracks parsedMidi)) as (Hn & Ht)
  end.
  rewrite Hn, Ht. by simpl.
Qed.

(** C7: [totalTime] of the returned sequence is the maximum of the end
    times [time + duration] over all notes of all tracks (every end time is
    below it and, when there is a note, one of them equals it); without
    notes it is 0. *)
Theorem midiToSequenceProto_totalTime_is_max parsedMidi :
  wellFormed parsedMidi →
  ∃ ns, midiToSequenceProto parsedMidi = Returns ns
    ∧ Forall (λ e, (e <= totalTime ns)%Q) (endTimes (tracks parsedMidi))
    ∧ (endTimes (tracks parsedMidi) ≠ [] →
         ∃ e, e ∈ endTimes (tracks parsedMidi) ∧ (totalTime ns == e)%Q)
    ∧ (endTimes (tracks parsedMidi) = [] → totalTime ns = 0%Q).
Proof.
  intros Hwf.
  destruct (midiToSequenceProto_returns parsedMidi) as (ns & Hret & _ & Ht).
  exists ns. split; [done|]. rewrite Ht.
  destruct (runningMax_ge 0 (endTimes (tracks parsedMidi))) as [H0 Hall].
  split_and!; [done| |by intros ->].
  intros Hne.
  destruct (runningMax_attained 0 (endTimes (tracks parsedMidi)))
    as [Heq|Hin]; [|by eexists].
  destruct (endTimes (tracks parsedMidi)) as [|e es] eqn:Hes; [done|].
  exists e. split; [left|]. rewrite Heq.
  apply Qle_antisym.
  - assert (e ∈ endTimes (tracks parsedMidi)) as He by (rewrite Hes; left).
    unfold endTimes in He. apply list_elem_of_bind in He as (track & He & Htr).
    apply list_elem_of_fmap in He as (note & -> & Hnote).
    unfold wellFormed in Hwf. rewrite Forall_forall in Hwf.
    specialize (Hwf track Htr). rewrite Forall_forall in Hwf.
    destruct (Hwf note Hnote) as [Htime Hdur].
    replace 0%Q with (0 + 0)%Q by done. by apply Qplus_le_compat.
  - rewrite <- Heq. by apply Forall_inv in Hall.
Qed.

Lemma nonEmptyBefore_lt tracks j track :
  tracks !! j = Some track → nonEmpty track →
  nonEmptyBefore tracks j < length (filter nonEmpty tracks).
Proof.
  intros Hj Hne. unfold nonEmptyBefore.
  rewrite <- (take_drop_middle tracks j track Hj) at 2.
  rewrite filter_app, filter_cons_True, length_app by done. simpl. lia.
Qed.

Lemma filter_lookup_position {A} (P : A → Prop) `{∀ x, Decision (P x)}
    (l : list A) (i : nat) (x : A) :
  filter P l !! i = Some x →
  ∃ j, l !! j = Some x ∧ P x ∧ length (filter P (take j l)) = i.
Proof.
  revert i. induction l as [|a l IH]; intros i Hi; [done|].
  rewrite filter_cons in Hi. destruct (decide (P a)) as [Ha|Ha].
  - destruct i as [|i].
    + injection Hi as ->. by exists 0.
    + destruct (IH i Hi) as (j & Hj & Hx & Hlen). exists (S j).
      split_and!; [done..|]. simpl. rewrite filter_cons_True by done.
      simpl. by rewrite Hlen.
  - destruct (IH i Hi) as (j & Hj & Hx & Hlen). exists (S j).
    split_and!; [done..|]. simpl. by rewrite filter_cons_False.
Qed.

(** The instrument numbers carried by the imported notes are those below
    the number of tracks with notes. *)
Lemma imported_instruments tracks (i : Z) :
  (∃ note,
     note ∈ mjoin (imap (λ j track,
                     createNote (Z.of_nat (nonEmptyBefore tracks j)) track
                       <$> Track.notes track) tracks)
     ∧ Note.instrument note = Some i)
  ↔ (0 ≤ i < Z.of_nat (length (filter nonEmpty tracks)))%Z.
Proof.
  split.
  - intros (note & Hin & Hi).
    apply list_elem_of_join in Hin as (l & Hin & Hl).
    apply elem_of_lookup_imap in Hl as (j & track & -> & Hj).
    apply list_elem_of_fmap in Hin as (midiNote & -> & Hm).
    injection Hi as <-.
    assert (nonEmpty track) as Hne.
    { unfold nonEmpty. destruct (Track.notes track); [|simpl; lia].
      by apply elem_of_nil in Hm. }
    pose proof (nonEmptyBefore_lt _ _ _ Hj Hne). lia.
  - intros Hi.
    destruct (lookup_lt_is_Some_2 (filter nonEmpty tracks) (Z.to_nat i))
      as [track Htrack]; [lia|].
    apply filter_lookup_position in Htrack as (j & Hj & Hne & Hlen).
    unfold nonEmpty in Hne.
    destruct (Track.notes track) as [|midiNote rest] eqn:Hnotes;
      [simpl in Hne; lia|].
    exists (createNote (Z.of_nat (nonEmptyBefore tracks j)) track midiNote).
    split.
    + apply list_elem_of_join. eexists.
      split; [|by eapply elem_of_lookup_imap_2].
      simpl. rewrite Hnotes. left.
    + simpl. f_equal. unfold nonEmptyBefore. lia.
Qed.

(** C8: the notes of the track at position [j], and only they, get the
    instrument number equal to the number of tracks with notes before
    position [j], so the [i]-th track with notes is instrument [i], tracks
    without notes use no number, and the instrument numbers of the output
    are exactly 0, …, m-1 for [m] tracks with notes. *)
Theorem midiToSequenceProto_instrument_numbering parsedMidi :
  ∃ ns, midiToSequenceProto parsedMidi = Returns ns
    ∧ notes ns
      = mjoin (imap (λ j track,
          createNote (Z.of_nat (nonEmptyBefore (tracks parsedMidi) j)) track
            <$> Track.notes track) (tracks parsedMidi))
    ∧ ∀ i : Z,
        (∃ note, note ∈ notes ns ∧ Note.instrument note = Some i)
        ↔ (0 ≤ i < Z.of_nat (length (filter nonEmpty (tracks parsedMidi))))%Z.
Proof.
  destruct (midiToSequenceProto_returns parsedMidi) as (ns & Hret & Hn & _).
  exists ns. split_and!; [done..|]. rewrite Hn. intros i.
  apply imported_instruments.
Qed.

End ImportFacts.

(** C7 at a file with two tracks whose notes are not ordered by end time:
    the end times are 2, 3/2 and 5/2, 1 and [totalTime] is 5/2. *)
Lemma midiToSequenceProto_totalTime_is_max_witness :
  let parsedMidi :=
    {| MidiIO.header :=
         {| MidiIO.Header.bpm := 120; MidiIO.Header.PPQ := 220;
            MidiIO.Header.timeSignature := None |};
       MidiIO.tracks :=
         [ MidiIO.Track.mk 0
             [MidiIO.MidiNote.mk 60 0 2 (4 # 5);
              MidiIO.MidiNote.mk 62 1 (1 # 2) (4 # 5)] false 0 0;
           MidiIO.Track.mk 1
             [MidiIO.MidiNote.mk 64 (1 # 2) 2 (1 # 2);
              MidiIO.MidiNote.mk 65 0 1 (1 # 2)] false 0 0 ] |} in
  ∃ ns, MidiIO.midiToSequenceProto parsedMidi = Returns ns
    ∧ Forall (λ e, (e <= MidiIO.totalTime ns)%Q)
             (MidiIO.endTimes (MidiIO.tracks parsedMidi))
    ∧ (MidiIO.endTimes (MidiIO.tracks parsedMidi) ≠ [] →
         ∃ e, e ∈ MidiIO.endTimes (MidiIO.tracks parsedMidi)
              ∧ (MidiIO.totalTime ns == e)%Q)
    ∧ (MidiIO.endTimes (MidiIO.tracks parsedMidi) = [] →
         MidiIO.totalTime ns = 0%Q).
Proof.
  intros parsedMidi. apply (midiToSequenceProto_totalTime_is_max parsedMidi).
  repeat (apply Forall_cons; split); try apply Forall_nil_2; done.
Defined.

(** ** Exporting a sequence *)

Section ExportFacts.
Import MidiIO.
Context `{Constants}.
Implicit Types (ns : INoteSequence).

Lemma applyDefaults_notes ns : notes (applyDefaults ns) = notes ns.
Proof.
  unfold applyDefaults.
  destruct (missing (tempos ns)); simpl;
    by destruct (missing (timeSignatures ns)).
Qed.

(** C9: the call writes only [tempos] and [timeSignatures] of the caller's
    object, each only when it is absent or empty and then with the default
    entry; when both lists are non-empty the object after the call equals
    the object before it, whether the call returns or throws. *)
Theorem sequenceProtoToMidi_frame ns :
  let after := (sequenceProtoToMidi ns).1 in
  ticksPerQuarter after = ticksPerQuarter ns
  ∧ sourceInfo after = sourceInfo ns
  ∧ notes after = notes ns
  ∧ totalTime after = totalTime ns
  ∧ tempos after
    = (if missing (tempos ns)
       then Some [ {| Tempo.time := 0;
                      Tempo.qpm := DEFAULT_QUARTERS_PER_MINUTE |} ]
       else tempos ns)
  ∧ timeSignatures after
    = (if missing (timeSignatures ns)
       then Some [ {| TimeSignature.time := 0;
                      TimeSignature.numerator := 4;
                      TimeSignature.denominator := 4 |} ]
       else timeSignatures ns)
  ∧ (missing (tempos ns) = false → missing (timeSignatures ns) = false →
       after = ns).
Proof.
  destruct ns as [tpq si tss ts ns_notes tt].
  unfold sequenceProtoToMidi, applyDefaults. simpl.
  destruct (missing ts) eqn:Hts, (missing tss) eqn:Htss; simpl;
    split_and!; try done; try by rewrite ?Hts, ?Htss.
Qed.

(** C1 at the sequence with instruments 0, …, 10: the instruments are
    contiguous from 0 and the tempo and time-signature checks pass, but
    [sort()] orders the keys as strings, 10 comes before 2, and the call
    throws the contiguity error. *)
Theorem sequenceProtoToMidi_eleven_instruments_throws :
  (λ note, default 0%Z (Note.instrument note)) <$> notes elevenInstruments
  = Z.of_nat <$> seq 0 11
  ∧ JS.sort (Z.of_nat <$> seq 0 11) = [0; 1; 10; 2; 3; 4; 5; 6; 7; 8; 9]%Z
  ∧ (sequenceProtoToMidi elevenInstruments).2
    = Throws (MidiConversionError
                "Instrument list must be continuous and start at 0").
Proof. split_and!; reflexivity. Qed.

(** C3 at the same sequence: it has one tempo and one time signature at
    time 0 and contiguous instruments, and the round trip yields no
    sequence because the export throws. *)
Theorem roundTrip_eleven_instruments_throws :
  tempos elevenInstruments = Some [ {| Tempo.time := 0; Tempo.qpm := 120 |} ]
  ∧ timeSignatures elevenInstruments
    = Some [ {| TimeSignature.time := 0;
                TimeSignature.numerator := 4;
                TimeSignature.denominator := 4 |} ]
  ∧ roundTrip elevenInstruments
    = Throws (MidiConversionError
                "Instrument list must be continuous and start at 0").
Proof. split_and!; reflexivity. Qed.

End ExportFacts.

(** C9 at a sequence with one tempo, one time signature and one note. *)
Lemma sequenceProtoToMidi_frame_witness :
  let ns :=
    {| MidiIO.ticksPerQuarter := None;
       MidiIO.sourceInfo := None;
       MidiIO.timeSignatures := Some [MidiIO.TimeSignature.mk 0 3 4];
       MidiIO.tempos := Some [MidiIO.Tempo.mk 0 90];
       MidiIO.notes := [MidiIO.noteOfInstrument 0];
       MidiIO.totalTime := 1 |} in
  (@MidiIO.sequenceProtoToMidi MidiIO.sampleConstants ns).1 = ns.
Proof.
  intros ns.
  apply (@sequenceProtoToMidi_frame MidiIO.sampleConstants ns); reflexivity.
Defined.

(** ** Export followed by import *)

Section MapFacts.
Context {V : Type}.
Implicit Types (m : Map V) (k : Z) (v : V).

Lemma mapGet_mapSet m k v k' :
  mapGet (mapSet m k v) k' = if decide (k = k') then Some v else mapGet m k'.
Proof.
  induction m as [|[k0 v0] m IH]; simpl.
  - by destruct (decide (k = k')).
  - destruct (decide (k0 = k)) as [->|Hne]; simpl.
    + by destruct (decide (k = k')).
    + rewrite IH. destruct (decide (k0 = k')) as [->|]; [|done].
      by rewrite decide_False by done.
Qed.

Lemma mapHas_true m k : mapHas m k = true ↔ is_Some (mapGet m k).
Proof. unfold mapHas. apply bool_decide_eq_true. Qed.

Lemma elem_of_mapKeys m k : k ∈ mapKeys m ↔ is_Some (mapGet m k).
Proof.
  unfold mapKeys. induction m as [|[k0 v0] m IH]; simpl.
  - split; [by intros ?%elem_of_nil|by intros [? ?]].
  - rewrite elem_of_cons, IH. destruct (decide (k0 = k)) as [->|Hne].
    + split; [by eexists|by left].
    + split; [by intros [->|?]|by right].
Qed.

End MapFacts.

Section SortFacts.
Implicit Types (x y : Z) (l : list Z).

Lemma elem_of_sortInsert x y l : y ∈ sortInsert x l ↔ y = x ∨ y ∈ l.
Proof.
  induction l as [|z l IH]; simpl.
  - rewrite list_elem_of_singleton, elem_of_nil. tauto.
  - destruct (sortCompareLt z x).
    + rewrite !elem_of_cons, IH. tauto.
    + by rewrite elem_of_cons.
Qed.

Lemma elem_of_sort y l : y ∈ JS.sort l ↔ y ∈ l.
Proof.
  unfold JS.sort. induction l as [|x l IH]; simpl; [done|].
  by rewrite elem_of_sortInsert, elem_of_cons, IH.
Qed.

Lemma length_sortInsert x l : length (sortInsert x l) = S (length l).
Proof.
  induction l as [|z l IH]; simpl; [done|].
  destruct (sortCompareLt z x); simpl; by rewrite ?IH.
Qed.

Lemma length_sort l : length (JS.sort l) = length l.
Proof.
  unfold JS.sort. induction l as [|x l IH]; simpl; [done|].
  by rewrite length_sortInsert, IH.
Qed.

End SortFacts.

Section MidiRoundTrip.
Import MidiIO.
Context `{Constants}.
Implicit Types (ns : INoteSequence) (note : Note.t) (i : Z) (k : nat).

Lemma instrumentOf_default note :
  instrumentOf note = default 0%Z (Note.instrument note).
Proof.
  unfold instrumentOf. destruct (Note.instrument note) as [i|]; [|done].
  simpl. by destruct (decide (i = 0%Z)).
Qed.

Lemma group_app i (l1 l2 : list Note.t) :
  group i (l1 ++ l2) = group i l1 ++ group i l2.
Proof. apply filter_app. Qed.

Lemma elem_of_group i (l : list Note.t) note :
  note ∈ group i l ↔ instrumentOf note = i ∧ note ∈ l.
Proof. unfold group. by rewrite list_elem_of_filter. Qed.

Lemma group_nonempty i (l : list Note.t) :
  group i l ≠ [] ↔ ∃ note, note ∈ l ∧ instrumentOf note = i.
Proof.
  split.
  - destruct (group i l) as [|note g] eqn:Hg; [done|]. intros _.
    assert (note ∈ group i l) as [? ?]%elem_of_group by (rewrite Hg; left).
    eauto.
  - intros (note & Hin & Hi) Hg.
    assert (note ∈ group i l) as Hn by by apply elem_of_group.
    rewrite Hg in Hn. by apply elem_of_nil in Hn.
Qed.

(** The map built by the grouping loop holds, under each instrument that
    occurs, the notes of that instrument in their original order. *)
Lemma groupNotes_get (l : list Note.t) i :
  mapGet (foldl groupNote [] l) i
  = match group i l with [] => None | g => Some g end.
Proof.
  induction l as [|note l IH] using rev_ind; [done|].
  rewrite foldl_app, group_app. simpl.
  set (tracks := foldl groupNote [] l) in *.
  unfold groupNote. rewrite mapGet_mapSet.
  destruct (decide (instrumentOf note = i)) as [Hi|Hi].
  - unfold group at 2. rewrite filter_cons_True, filter_nil by done.
    destruct (mapHas tracks (instrumentOf note)) eqn:Hhas; simpl.
    + apply mapHas_true in Hhas as [g Hg]. rewrite Hg. simpl.
      rewrite Hi, IH in Hg. destruct (group i l); [done|].
      by injection Hg as <-.
    + rewrite mapGet_mapSet, decide_True by done. simpl.
      assert (mapGet tracks i = None) as Hnone.
      { rewrite <- Hi. destruct (mapGet tracks (instrumentOf note)) eqn:Hg;
          [|done].
        assert (mapHas tracks (instrumentOf note) = true)
          by (apply mapHas_true; eauto). congruence. }
      rewrite IH in Hnone. by destruct (group i l).
  - unfold group at 2. rewrite filter_cons_False, filter_nil, app_nil_r by done.
    destruct (mapHas tracks (instrumentOf note)); simpl; [done|].
    by rewrite mapGet_mapSet, decide_False.
Qed.

(** The keys of the map are the instruments that occur. *)
Lemma groupNotes_keys (l : list Note.t) i :
  i ∈ mapKeys (foldl groupNote [] l)
  ↔ ∃ note, note ∈ l ∧ instrumentOf note = i.
Proof.
  rewrite elem_of_mapKeys, groupNotes_get, <- group_nonempty.
  destruct (group i l); split; try done; by intros [? ?].
Qed.

Lemma exportTrack_returns (tracks : Map (list Note.t)) (instruments : list Z)
    (json json' : list Track.t) (j : nat) :
  exportTrack tracks instruments json j = Returns json' →
  instruments !! j = Some (Z.of_nat j)
  ∧ ∃ note0 rest,
      mapGet tracks (Z.of_nat j) = Some (note0 :: rest)
      ∧ json' = json ++ [makeTrack j note0 (note0 :: rest)].
Proof.
  unfold exportTrack. case_bool_decide as Hj; [done|].
  destruct (mapGet tracks (Z.of_nat j)) as [[|note0 rest]|]; [done| |done].
  intros [= <-]. eauto.
Qed.

(** A run of the track loop that returns has seen its own index under every
    position and has appended, for each index, the track of that
    instrument's notes. *)
Lemma exportTracks_returns (tracks : Map (list Note.t)) (instruments : list Z)
    (start len : nat) (json json' : list Track.t) :
  forEach (exportTrack tracks instruments) (seq start len) json
  = Returns json' →
  ∃ new, json' = json ++ new
    ∧ Forall2 (λ j track,
        instruments !! j = Some (Z.of_nat j)
        ∧ ∃ note0 rest,
            mapGet tracks (Z.of_nat j) = Some (note0 :: rest)
            ∧ track = makeTrack j note0 (note0 :: rest))
        (seq start len) new.
Proof.
  revert start json. induction len as [|len IH]; intros start json; simpl.
  { intros [= <-]. exists []. by rewrite app_nil_r. }
  destruct (exportTrack tracks instruments json start) as [json1|e] eqn:Hstep;
    [|done].
  apply exportTrack_returns in Hstep as (Hi & note0 & rest & Hget & ->).
  rewrite outcome_bind_apply. intros (new & -> & Hnew)%IH.
  exists (makeTrack start note0 (note0 :: rest) :: new).
  split; [by rewrite <- app_assoc|]. constructor; [|done]. eauto.
Qed.

(** What a returned export says about the input: its instruments are
    exactly 0, …, k-1, and track [j] of the output is built from the notes
    of instrument [j]. *)
Lemma exportValidated_returns ns json :
  exportValidated ns = Returns json →
  ∃ k,
    (∀ i, (∃ note, note ∈ notes ns ∧ instrumentOf note = i)
          ↔ (0 ≤ i < Z.of_nat k)%Z)
    ∧ Forall2 (λ j track,
        ∃ note0 rest,
          group (Z.of_nat j) (notes ns) = note0 :: rest
          ∧ track = makeTrack j note0 (note0 :: rest))
        (seq 0 k) (tracks json).
Proof.
  unfold exportValidated.
  destruct (tempos ns) as [[|tempo0 tempos']|]; [done| |done].
  destruct (timeSignatures ns) as [[|timeSignature0 timeSignatures']|];
    [done| |done].
  destruct (_ || _); [done|]. destruct (_ || _); [done|].
  set (trackMap := foldl groupNote [] (notes ns)).
  set (instruments := JS.sort (mapKeys trackMap)).
  destruct (forEach _ _ _) as [new|e] eqn:Hloop; [|done].
  rewrite outcome_bind_apply. intros [= <-]. simpl.
  apply exportTracks_returns in Hloop as (new' & -> & Hnew). simpl.
  exists (length instruments). split.
  - intros i. rewrite <- groupNotes_keys. fold trackMap.
    rewrite <- elem_of_sort. fold instruments. split.
    + intros [j Hj]%list_elem_of_lookup.
      pose proof (lookup_lt_Some _ _ _ Hj) as Hlt.
      destruct (Forall2_lookup_l _ _ _ j j Hnew) as (track & _ & Hij & _);
        [by apply lookup_seq_lt|].
      rewrite Hj in Hij. injection Hij as ->. lia.
    + intros Hi.
      destruct (Forall2_lookup_l _ _ _ (Z.to_nat i) (Z.to_nat i) Hnew)
        as (track & _ & Hij & _); [apply lookup_seq_lt; lia|].
      rewrite Z2Nat.id in Hij by lia. by eapply list_elem_of_lookup_2.
  - eapply Forall2_impl; [done|]. simpl.
    intros j track (_ & note0 & rest & Hget & ->). exists note0, rest.
    split; [|done]. unfold trackMap in Hget. rewrite groupNotes_get in Hget.
    destruct (group (Z.of_nat j) (notes ns)); [done|]. congruence.
Qed.

Lemma filter_all {A} (P : A → Prop) `{∀ x, Decision (P x)} (l : list A) :
  Forall P l → filter P l = l.
Proof.
  induction 1 as [|x l Hx _ IH]; [done|].
  by rewrite filter_cons_True, IH.
Qed.



Lemma grouped_S k (l : list Note.t) :
  grouped (S k) l = grouped k l ++ group (Z.of_nat k) l.
Proof.
  unfold grouped. rewrite seq_S, fmap_app, join_app. simpl.
  by rewrite app_nil_r.
Qed.

Lemma below_split k (l : list Note.t) :
  filter (λ note, instrumentOf note < Z.of_nat (S k))%Z l
  ≡ₚ filter (λ note, instrumentOf note < Z.of_nat k)%Z l
     ++ group (Z.of_nat k) l.
Proof.
  unfold group. induction l as [|note l IH]; [done|].
  rewrite !filter_cons.
  destruct (decide (instrumentOf note < Z.of_nat (S k))%Z),
    (decide (instrumentOf note < Z.of_nat k)%Z),
    (decide (instrumentOf note = Z.of_nat k)); try lia.
  - simpl. by rewrite IH.
  - rewrite IH. apply Permutation_middle.
  - done.
Qed.

Lemma grouped_below k (l : list Note.t) :
  Forall (λ note, 0 ≤ instrumentOf note)%Z l →
  grouped k l ≡ₚ filter (λ note, instrumentOf note < Z.of_nat k)%Z l.
Proof.
  intros Hl. induction k as [|k IH].
  - unfold grouped. simpl. symmetry. apply Permutation_nil_r.
    induction Hl as [|note l Hnote _ IHl]; [done|].
    rewrite filter_cons_False by lia. done.
  - by rewrite grouped_S, IH, below_split.
Qed.

(** Grouping by the instruments 0, …, k-1 only reorders a list whose
    instruments all lie in that range. *)
Lemma grouped_Permutation k (l : list Note.t) :
  Forall (λ note, 0 ≤ instrumentOf note < Z.of_nat k)%Z l →
  grouped k l ≡ₚ l.
Proof.
  intros Hl. rewrite grouped_below.
  - rewrite filter_all; [done|]. eapply Forall_impl; [done|]. simpl. lia.
  - eapply Forall_impl; [done|]. simpl. lia.
Qed.


(** An export that returns had an input whose instruments are exactly
    0, …, k-1: every gap and every start above 0 is rejected. *)
Theorem sequenceProtoToMidi_returns_contiguous ns json :
  (sequenceProtoToMidi ns).2 = Returns json →
  ∃ k, length (tracks json) = k
    ∧ ∀ i, (∃ note, note ∈ notes ns ∧ instrumentOf note = i)
           ↔ (0 ≤ i < Z.of_nat k)%Z.
Proof.
  unfold sequenceProtoToMidi. simpl.
  intros (k & Hinstr & Htracks)%exportValidated_returns.
  pose proof (applyDefaults_notes ns) as Hnotes.
  rewrite Hnotes in Hinstr. exists k. split; [|done].
  apply Forall2_length in Htracks. by rewrite length_seq in Htracks.
Qed.

End MidiRoundTrip.

(** ** Up to ten instruments the string order is the numeric order *)

Section SingleDigits.
Import MidiIO.
Context `{Constants}.
Implicit Types (x y : Z) (l : list Z).

Lemma digit_elem_of x : digit x → x ∈ Z.of_nat <$> seq 0 10.
Proof.
  unfold digit. intros Hx. apply list_elem_of_fmap. exists (Z.to_nat x).
  split; [lia|]. apply elem_of_seq. lia.
Qed.

(** On single digits the string comparison is the numeric one. *)
Lemma sortCompareLt_digit x y :
  digit x → digit y → sortCompareLt x y = bool_decide (x < y)%Z.
Proof.
  intros Hx%digit_elem_of Hy%digit_elem_of.
  assert (Forall (λ a, Forall (λ b,
            sortCompareLt a b = bool_decide (a < b)%Z)
              (Z.of_nat <$> seq 0 10)) (Z.of_nat <$> seq 0 10)) as Hall
    by (apply (bool_decide_unpack _); vm_compute; exact I).
  rewrite Forall_forall in Hall. specialize (Hall x Hx).
  rewrite Forall_forall in Hall. by apply Hall.
Qed.

Lemma sortInsert_Permutation x l : sortInsert x l ≡ₚ x :: l.
Proof.
  induction l as [|y l IH]; simpl; [done|].
  destruct (sortCompareLt y x); [|done].
  rewrite IH. apply Permutation_swap.
Qed.

Lemma sort_Permutation l : JS.sort l ≡ₚ l.
Proof.
  unfold JS.sort. induction l as [|x l IH]; simpl; [done|].
  by rewrite sortInsert_Permutation, IH.
Qed.

Lemma sortInsert_sorted x l :
  digit x → Forall digit l →
  StronglySorted Z.le l → StronglySorted Z.le (sortInsert x l).
Proof.
  intros Hx Hl Hsorted.
  induction Hsorted as [|y l Hsorted IH Hy]; simpl.
  { repeat constructor. }
  apply Forall_cons in Hl as [Hdy Hl].
  rewrite sortCompareLt_digit by done. case_bool_decide as Hyx.
  - constructor; [by apply IH|].
    rewrite sortInsert_Permutation. constructor; [lia|done].
  - constructor; [by constructor|]. constructor; [lia|].
    eapply Forall_impl; [done|]. simpl. lia.
Qed.

Lemma sort_sorted l : Forall digit l → StronglySorted Z.le (JS.sort l).
Proof.
  induction 1 as [|x l Hx Hl IH]; [exact (SSorted_nil _)|].
  change (StronglySorted Z.le (sortInsert x (JS.sort l))).
  apply sortInsert_sorted; [done| |done].
  apply Forall_forall. intros y Hy.
  apply (proj1 (elem_of_sort y l)) in Hy.
  rewrite Forall_forall in Hl. by apply Hl.
Qed.

Lemma seq_sorted (start len : nat) :
  StronglySorted Z.le (Z.of_nat <$> seq start len).
Proof.
  revert start. induction len as [|len IH]; intros start; simpl;
    constructor; [apply IH|].
  apply Forall_fmap, Forall_forall. intros j Hj%elem_of_seq. simpl. lia.
Qed.

(** A duplicate-free list of the numbers 0, …, k-1 with k ≤ 10 is put in
    ascending order by [sort()]. *)
Lemma sort_contiguous_digits l (k : nat) :
  k ≤ 10 → NoDup l → (∀ x, x ∈ l ↔ (0 ≤ x < Z.of_nat k)%Z) →
  JS.sort l = Z.of_nat <$> seq 0 k.
Proof.
  intros Hk Hnodup Hl.
  apply (StronglySorted_unique Z.le).
  - apply sort_sorted, Forall_forall. intros x Hx%Hl. unfold digit. lia.
  - apply seq_sorted.
  - rewrite sort_Permutation. apply NoDup_Permutation; [done| |].
    + apply (NoDup_fmap_2 _), NoDup_seq.
    + intros x. rewrite Hl, list_elem_of_fmap. split.
      * intros Hx. exists (Z.to_nat x). rewrite elem_of_seq. lia.
      * intros (j & -> & Hj%elem_of_seq). lia.
Qed.

Lemma mapKeys_mapSet {V} (m : Map V) (k : Z) (v : V) :
  mapKeys (mapSet m k v)
  = if decide (is_Some (mapGet m k)) then mapKeys m else mapKeys m ++ [k].
Proof.
  induction m as [|[k0 v0] m IH]; [done|].
  cbn [mapSet mapGet]. destruct (decide (k0 = k)) as [->|Hne]; [done|].
  change (mapKeys ((k0, v0) :: mapSet m k v))
    with (k0 :: mapKeys (mapSet m k v)).
  change (mapKeys ((k0, v0) :: m)) with (k0 :: mapKeys m).
  rewrite IH. by destruct (decide (is_Some (mapGet m k))).
Qed.

Lemma groupNotes_keys_NoDup (l : list Note.t) :
  NoDup (mapKeys (foldl groupNote [] l)).
Proof.
  induction l as [|note l IH] using rev_ind; [constructor|].
  rewrite foldl_app. simpl. set (tracks := foldl groupNote [] l) in *.
  unfold groupNote.
  destruct (mapHas tracks (instrumentOf note)) eqn:Hhas; simpl.
  - apply mapHas_true in Hhas. by rewrite mapKeys_mapSet, decide_True.
  - assert (¬ is_Some (mapGet tracks (instrumentOf note))) as Hnone.
    { intros Hsome%mapHas_true. congruence. }
    rewrite mapKeys_mapSet, decide_True.
    + rewrite mapKeys_mapSet, decide_False by done.
      apply NoDup_app. split_and!; [done| |apply NoDup_singleton].
      intros x Hx%elem_of_mapKeys ->%list_elem_of_singleton. done.
    + rewrite mapGet_mapSet, decide_True by done. by eexists.
Qed.

Lemma exportTrack_ok (tracks : Map (list Note.t)) (instruments : list Z)
    (json : list Track.t) (j : nat) note0 rest :
  instruments !! j = Some (Z.of_nat j) →
  mapGet tracks (Z.of_nat j) = Some (note0 :: rest) →
  exportTrack tracks instruments json j
  = Returns (json ++ [makeTrack j note0 (note0 :: rest)]).
Proof.
  intros Hi Hget. unfold exportTrack.
  rewrite bool_decide_eq_false_2 by (by intros ?). by rewrite Hget.
Qed.

Lemma exportTracks_ok (tracks : Map (list Note.t)) (instruments : list Z)
    (start len : nat) (json : list Track.t) :
  (∀ j, start ≤ j < start + len →
     instruments !! j = Some (Z.of_nat j)
     ∧ ∃ note0 rest, mapGet tracks (Z.of_nat j) = Some (note0 :: rest)) →
  ∃ json',
    forEach (exportTrack tracks instruments) (seq start len) json
    = Returns json'.
Proof.
  revert start json. induction len as [|len IH]; intros start json Hall.
  { by eexists. }
  simpl. destruct (Hall start) as (Hi & note0 & rest & Hget); [lia|].
  rewrite (exportTrack_ok _ _ _ _ _ _ Hi Hget), outcome_bind_apply.
  apply IH. intros j Hj. apply Hall. lia.
Qed.

Lemma exportValidated_ok ns (k : nat) tempo0 timeSignature0 :
  tempos ns = Some [tempo0] → (Tempo.time tempo0 == 0)%Q →
  timeSignatures ns = Some [timeSignature0] →
  (TimeSignature.time timeSignature0 == 0)%Q →
  k ≤ 10 →
  (∀ i, (∃ note, note ∈ notes ns ∧ instrumentOf note = i)
        ↔ (0 ≤ i < Z.of_nat k)%Z) →
  ∃ json, exportValidated ns = Returns json
          ∧ header json = exportedHeader ns tempo0 timeSignature0
          ∧ length (tracks json) = k.
Proof.
  intros Htempos Htempo0 Hts Hts0 Hk Hinstr.
  unfold exportValidated. rewrite Htempos, Hts. simpl.
  apply Qeq_bool_iff in Htempo0, Hts0. rewrite Htempo0, Hts0. simpl.
  rewrite (sort_contiguous_digits _ k); [|done|apply groupNotes_keys_NoDup|];
    last first.
  { intros x. by rewrite groupNotes_keys. }
  rewrite length_fmap, length_seq.
  match goal with
  | |- context [forEach ?body (seq 0 k) []] =>
      destruct (forEach body (seq 0 k) []) as [json|e] eqn:Hloop
  end.
  - eexists. split; [done|]. simpl. split; [done|].
    apply exportTracks_returns in Hloop as (new & -> & Hnew).
    apply Forall2_length in Hnew. by rewrite length_seq in Hnew.
  - destruct (exportTracks_ok (foldl groupNote [] (notes ns))
                (Z.of_nat <$> seq 0 k) 0 k []) as [json Hjson];
      [|congruence].
    intros j Hj. split.
    + rewrite list_lookup_fmap, lookup_seq_lt by lia. done.
    + rewrite groupNotes_get.
      destruct (group (Z.of_nat j) (notes ns)) as [|note0 rest] eqn:Hg;
        [|by eauto].
      destruct (proj2 (group_nonempty (Z.of_nat j) (notes ns))); [|done].
      apply Hinstr. lia.
Qed.

Lemma applyDefaults_present ns :
  missing (tempos ns) = false → missing (timeSignatures ns) = false →
  applyDefaults ns = ns.
Proof. intros Ht Hs. unfold applyDefaults. by rewrite Ht, Hs. Qed.

(** With one tempo and one time signature at time 0 and at most ten
    instruments numbered 0, …, k-1, the export returns, with one track per
    instrument. *)
Theorem sequenceProtoToMidi_contiguous_up_to_ten ns (k : nat) :
  singleTempoAtZero ns → singleTimeSignatureAtZero ns →
  k ≤ 10 →
  (∀ i, (∃ note, note ∈ notes ns ∧ instrumentOf note = i)
        ↔ (0 ≤ i < Z.of_nat k)%Z) →
  ∃ json, (sequenceProtoToMidi ns).2 = Returns json
          ∧ length (tracks json) = k.
Proof.
  intros (tempo0 & Htempos & Htempo0) (ts0 & Hts & Hts0) Hk Hinstr.
  unfold sequenceProtoToMidi. simpl.
  rewrite applyDefaults_present by (by rewrite ?Htempos, ?Hts).
  destruct (exportValidated_ok ns k tempo0 ts0) as (json & Hret & _ & Hlen);
    [done..|].
  by exists json.
Qed.

End SingleDigits.

(** ** The cells of an encoded sequence *)

Section EncodeCells.
Import Coconet.
Implicit Types (roll : Pianoroll Z) (note : Note) (ns : NoteSequence).

Lemma cell_lookup {A} (roll : Pianoroll A) s p v step row :
  roll !! s = Some step → step !! p = Some row →
  cell roll s p v = row !! v.
Proof. intros Hs Hp. unfold cell. rewrite Hs. simpl. by rewrite Hp. Qed.

Lemma shaped_lookup {A} N (roll : Pianoroll A) s p :
  shaped N roll → s < N → p < NUM_PITCHES →
  ∃ step row, roll !! s = Some step ∧ step !! p = Some row
              ∧ length step = NUM_PITCHES ∧ length row = 4.
Proof.
  intros [Hlen Hsteps] Hs Hp.
  destruct (lookup_lt_is_Some_2 roll s) as [step Hstep]; [lia|].
  destruct (Forall_lookup_1 _ _ _ _ Hsteps Hstep) as [Hrows Hcells].
  destruct (lookup_lt_is_Some_2 step p) as [row Hrow]; [lia|].
  exists step, row. split_and!; [done..|].
  by apply (Forall_lookup_1 _ _ _ _ Hcells Hrow).
Qed.

(** Two rolls of the same shape with the same cells are the same roll. *)
Lemma shaped_ext {A} N (roll1 roll2 : Pianoroll A) :
  shaped N roll1 → shaped N roll2 →
  (∀ s p v, s < N → p < NUM_PITCHES → v < 4 →
     cell roll1 s p v = cell roll2 s p v) →
  roll1 = roll2.
Proof.
  intros H1 H2 Hcells. apply list_eq. intros s.
  destruct (decide (s < N)) as [Hs|Hs]; last first.
  { destruct H1 as [<- _], H2 as [Hlen _].
    rewrite !lookup_ge_None_2 by lia. done. }
  destruct (shaped_lookup N roll1 s 0 H1 Hs) as (step1 & _ & Hs1 & _ & Hl1 & _);
    [unfold NUM_PITCHES; lia|].
  destruct (shaped_lookup N roll2 s 0 H2 Hs) as (step2 & _ & Hs2 & _ & Hl2 & _);
    [unfold NUM_PITCHES; lia|].
  rewrite Hs1, Hs2. f_equal. apply list_eq. intros p.
  destruct (decide (p < NUM_PITCHES)) as [Hp|Hp]; last first.
  { rewrite !lookup_ge_None_2 by lia. done. }
  destruct (shaped_lookup N roll1 s p H1 Hs Hp)
    as (step1' & row1 & Hs1' & Hr1 & _ & Hlr1).
  destruct (shaped_lookup N roll2 s p H2 Hs Hp)
    as (step2' & row2 & Hs2' & Hr2 & _ & Hlr2).
  rewrite Hs1 in Hs1'. injection Hs1' as <-.
  rewrite Hs2 in Hs2'. injection Hs2' as <-.
  rewrite Hr1, Hr2. f_equal. apply list_eq. intros v.
  destruct (decide (v < 4)) as [Hv|Hv]; last first.
  { rewrite !lookup_ge_None_2 by lia. done. }
  rewrite <- (cell_lookup roll1 s p v step1 row1) by done.
  rewrite <- (cell_lookup roll2 s p v step2 row2) by done.
  by apply Hcells.
Qed.

(** One assignment [pianoroll[i][pitchIndex][voice] = 1] within the shape
    sets that cell and no other. *)
Lemma setCell_cell N roll (i pitchIndex voice : Z) :
  shaped N roll → (0 ≤ i < Z.of_nat N)%Z →
  (0 ≤ pitchIndex < Z.of_nat NUM_PITCHES)%Z → (0 ≤ voice ≤ 3)%Z →
  ∃ roll', setCell roll i pitchIndex voice = Returns roll'
    ∧ shaped N roll'
    ∧ ∀ s p v,
        cell roll' s p v
        = if decide (Z.of_nat s = i ∧ Z.of_nat p = pitchIndex
                     ∧ Z.of_nat v = voice)
          then Some 1%Z else cell roll s p v.
Proof.
  intros Hroll Hi Hp Hv.
  destruct (setCell_shaped N roll i pitchIndex voice) as (roll' & Hset & Hsh);
    [done..|].
  exists roll'. split_and!; [done..|].
  destruct (shaped_lookup N roll (Z.to_nat i) (Z.to_nat pitchIndex) Hroll)
    as (step & row & Hstep & Hrow & Hlstep & Hlrow); [lia..|].
  unfold setCell in Hset.
  rewrite index_nonneg, Hstep in Hset by lia. simpl in Hset.
  rewrite index_nonneg, Hrow in Hset by lia. injection Hset as <-.
  intros s p v. unfold cell.
  destruct (decide (s = Z.to_nat i)) as [->|Hs]; last first.
  { rewrite list_lookup_insert_ne by done.
    rewrite decide_False by lia. done. }
  rewrite list_lookup_insert_eq by (by eapply lookup_lt_Some).
  rewrite Hstep. simpl.
  destruct (decide (p = Z.to_nat pitchIndex)) as [->|Hp']; last first.
  { rewrite list_lookup_insert_ne by done.
    rewrite decide_False by lia. done. }
  rewrite list_lookup_insert_eq by lia. rewrite Hrow. simpl.
  destruct (decide (v = Z.to_nat voice)) as [->|Hv']; last first.
  { rewrite list_lookup_insert_ne by done.
    rewrite decide_False by lia. done. }
  rewrite list_lookup_insert_eq by lia.
  rewrite decide_True by lia. done.
Qed.

(** The inner loop of [sequenceToPianoroll]: the cells of the steps it
    visits, in one row and one voice, become 1. *)
Lemma fill_cell N roll (stepIndex pitchIndex voice : Z) (ks : list nat) :
  shaped N roll →
  (0 ≤ pitchIndex < Z.of_nat NUM_PITCHES)%Z → (0 ≤ voice ≤ 3)%Z →
  Forall (λ k, 0 ≤ stepIndex + Z.of_nat k < Z.of_nat N)%Z ks →
  ∃ roll',
    forEach (λ roll k, setCell roll (stepIndex + Z.of_nat k) pitchIndex voice)
            ks roll = Returns roll'
    ∧ shaped N roll'
    ∧ ∀ s p v,
        cell roll' s p v
        = if decide (Exists (λ k, Z.of_nat s = stepIndex + Z.of_nat k)%Z ks
                     ∧ Z.of_nat p = pitchIndex ∧ Z.of_nat v = voice)
          then Some 1%Z else cell roll s p v.
Proof.
  intros Hroll Hp Hv Hks. revert roll Hroll.
  induction Hks as [|k ks Hk _ IH]; intros roll Hroll.
  { exists roll. split_and!; [done..|]. intros s p v.
    rewrite decide_False; [done|]. by intros [?%Exists_nil _]. }
  simpl.
  destruct (setCell_cell N roll (stepIndex + Z.of_nat k) pitchIndex voice)
    as (roll1 & -> & Hroll1 & Hcell1); [done..|].
  simpl. destruct (IH roll1 Hroll1) as (roll' & -> & Hroll' & Hcell').
  exists roll'. split_and!; [done..|]. intros s p v.
  rewrite Hcell', Hcell1.
  pose proof (Exists_cons (λ k, Z.of_nat s = stepIndex + Z.of_nat k)%Z k ks)
    as Hcons.
  repeat case_decide; try done; exfalso; tauto.
Qed.

Lemma encodeNote_cell N roll note :
  shaped N roll → validVoice note → inRange N note →
  ∃ roll', encodeNote roll note = Returns roll'
    ∧ shaped N roll'
    ∧ ∀ s p v,
        cell roll' s p v
        = if decide (sounds note s p v) then Some 1%Z else cell roll s p v.
Proof.
  intros Hroll Hv (Hp & Hs & He). unfold encodeNote, validVoice in *.
  rewrite bool_decide_eq_false_2 by lia.
  destruct (fill_cell N roll (quantizedStartStep note)
              (pitch note - MIN_PITCH) (instrument note)
              (seq 0 (Z.to_nat (quantizedEndStep note
                                - quantizedStartStep note))))
    as (roll' & -> & Hroll' & Hcell); [done|unfold MIN_PITCH in *; lia|done| |].
  { apply Forall_forall. intros k Hk%elem_of_seq. lia. }
  exists roll'. split_and!; [done..|]. intros s p v. rewrite Hcell.
  unfold sounds.
  case_decide as Hfill; case_decide as Hsounds; try done; exfalso.
  - destruct Hfill as (Hex & ? & ?).
    apply Exists_exists in Hex as (k & Hk & ?).
    apply elem_of_seq in Hk. lia.
  - destruct Hsounds as (? & ? & ?). apply Hfill. split_and!; [|lia..].
    apply Exists_exists.
    exists (Z.to_nat (Z.of_nat s - quantizedStartStep note)).
    rewrite elem_of_seq. lia.
Qed.

Lemma encodeNotes_cell N roll (l : list Note) :
  shaped N roll → Forall (λ n, validVoice n ∧ inRange N n) l →
  ∃ roll', forEach encodeNote l roll = Returns roll'
    ∧ shaped N roll'
    ∧ ∀ s p v,
        cell roll' s p v
        = if decide (Exists (λ note, sounds note s p v) l)
          then Some 1%Z else cell roll s p v.
Proof.
  intros Hroll Hl. revert roll Hroll.
  induction Hl as [|note l [Hv Hr] _ IH]; intros roll Hroll.
  { exists roll. split_and!; [done..|]. intros s p v.
    rewrite decide_False; [done|]. by intros ?%Exists_nil. }
  simpl. destruct (encodeNote_cell N roll note) as (roll1 & -> & Hroll1 & Hc1);
    [done..|].
  simpl. destruct (IH roll1 Hroll1) as (roll' & -> & Hroll' & Hc').
  exists roll'. split_and!; [done..|]. intros s p v. rewrite Hc', Hc1.
  pose proof (Exists_cons (λ note, sounds note s p v) note l) as Hcons.
  repeat case_decide; try done; exfalso; tauto.
Qed.

Lemma buildEmptyPianoroll_cell N s p v :
  s < N → p < NUM_PITCHES → v < 4 →
  cell (buildEmptyPianoroll N) s p v = Some 0%Z.
Proof.
  intros Hs Hp Hv. rewrite buildEmptyPianoroll_replicate.
  rewrite (cell_lookup _ s p v (replicate NUM_PITCHES [0; 0; 0; 0]%Z)
             [0; 0; 0; 0]%Z) by by apply lookup_replicate_2.
  do 4 (destruct v as [|v]; [done|]). lia.
Qed.

Lemma encodeNotes_from_empty N (l : list Note) :
  Forall (λ n, validVoice n ∧ inRange N n) l →
  ∃ roll, forEach encodeNote l (buildEmptyPianoroll N) = Returns roll
    ∧ shaped N roll
    ∧ ∀ s p v, s < N → p < NUM_PITCHES → v < 4 →
        cell roll s p v
        = Some (if decide (Exists (λ note, sounds note s p v) l)
                then 1%Z else 0%Z).
Proof.
  intros Hall.
  destruct (encodeNotes_cell N (buildEmptyPianoroll N) l)
    as (roll & Hret & Hsh & Hcell); [apply buildEmptyPianoroll_shaped|done|].
  exists roll. split_and!; [done..|]. intros s p v Hs Hp Hv.
  rewrite Hcell, buildEmptyPianoroll_cell by done. by case_decide.
Qed.

(** The encoder as a function of cells: when every note has its voice,
    pitch and steps in range, the call returns a tensor of shape
    [[N][46][4]] whose cell [[s][p][v]] is 1 when some note covers it and 0
    otherwise. *)
Theorem sequenceToPianoroll_cells ns N :
  Forall (λ n, validVoice n ∧ inRange N n) (notes ns) →
  ∃ roll, sequenceToPianoroll ns N = Returns roll
    ∧ shaped N roll
    ∧ ∀ s p v, s < N → p < NUM_PITCHES → v < 4 →
        cell roll s p v
        = Some (if decide (Exists (λ note, sounds note s p v) (notes ns))
                then 1%Z else 0%Z).
Proof. apply encodeNotes_from_empty. Qed.

Lemma cell_Some_bounds {A} N (roll : Pianoroll A) s p v x :
  shaped N roll → cell roll s p v = Some x →
  s < N ∧ p < NUM_PITCHES ∧ v < 4.
Proof.
  intros [Hlen Hsteps] Hc. unfold cell in Hc.
  destruct (roll !! s) as [step|] eqn:Hs; [|done]. simpl in Hc.
  destruct (step !! p) as [row|] eqn:Hp; [|done]. simpl in Hc.
  destruct (Forall_lookup_1 _ _ _ _ Hsteps Hs) as [Hrows Hcells].
  pose proof (Forall_lookup_1 _ _ _ _ Hcells Hp) as Hrow. simpl in Hrow.
  apply lookup_lt_Some in Hs, Hp, Hc. lia.
Qed.

Lemma sounds_noteAt s' p' v' s p v :
  sounds (noteAt s' p' v') s p v ↔ s = s' ∧ p = p' ∧ v = v'.
Proof. unfold sounds, noteAt. simpl. lia. Qed.





Lemma pianorollToSequence_active roll :
  (∃ s p v, cell roll s p v = Some 1%Z) →
  ∃ lastNote,
    last (emittedNotes roll) = Some lastNote
    ∧ pianorollToSequence roll
      = Returns {| notes := emittedNotes roll;
                   totalQuantizedSteps := quantizedEndStep lastNote |}.
Proof.
  intros (s & p & v & Hc).
  assert (noteAt s p v ∈ emittedNotes roll) as Hin
    by (apply elem_of_emittedNotes; eauto).
  unfold pianorollToSequence. rewrite index_last.
  destruct (last (emittedNotes roll)) as [lastNote|] eqn:Hlast; [by eexists|].
  apply last_None in Hlast. rewrite Hlast in Hin. by apply elem_of_nil in Hin.
Qed.



(** Decoding then encoding gives the tensor back: for a tensor of shape
    [[N][46][4]] with cells 0 or 1 and at least one active cell,
    [pianorollToSequence] returns a sequence that [sequenceToPianoroll]
    encodes into the same tensor. *)
Theorem pianoroll_decode_encode roll N :
  shaped N roll → binary roll → (∃ s p v, cell roll s p v = Some 1%Z) →
  ∃ ns, pianorollToSequence roll = Returns ns
        ∧ sequenceToPianoroll ns N = Returns roll.
Proof.
  intros Hsh Hbin Hactive.
  destruct (pianorollToSequence_active roll Hactive) as (lastNote & _ & Hret).
  eexists. split; [done|]. unfold sequenceToPianoroll. simpl.
  destruct (encodeNotes_from_empty N (emittedNotes roll))
    as (roll' & -> & Hsh' & Hcell').
  { apply Forall_forall. intros note (s & p & v & Hc & ->)%elem_of_emittedNotes.
    destruct (cell_Some_bounds N roll s p v _ Hsh Hc) as (Hs & Hp & Hv).
    unfold validVoice, inRange, noteAt, MIN_PITCH, NUM_PITCHES in *. simpl.
    lia. }
  f_equal. apply (shaped_ext N); [done..|]. intros s p v Hs Hp Hv.
  rewrite Hcell' by done.
  destruct (shaped_lookup N roll s p Hsh Hs Hp)
    as (step & row & Hstep & Hrow & _ & Hlrow).
  destruct (lookup_lt_is_Some_2 row v) as [x Hx]; [lia|].
  assert (cell roll s p v = Some x) as Hc
    by (by rewrite (cell_lookup roll s p v step row)).
  rewrite Hc. f_equal. case_decide as Hex.
  - apply Exists_exists in Hex as (note & Hnote & Hsounds).
    apply elem_of_emittedNotes in Hnote as (s' & p' & v' & Hc' & ->).
    apply sounds_noteAt in Hsounds as (-> & -> & ->). congruence.
  - destruct (Hbin _ _ _ _ Hc) as [->| ->]; [done|]. destruct Hex.
    apply Exists_exists. exists (noteAt s p v).
    split; [apply elem_of_emittedNotes; eauto|by apply sounds_noteAt].
Qed.


End EncodeCells.

(** ** Notes the encoder cannot place, and notes it skips *)

Section EncodeEdges.
Import Coconet.
Implicit Types (roll : Pianoroll Z) (note : Note) (ns : NoteSequence).

Lemma setCell_out_of_range N roll (i pitchIndex voice : Z) :
  shaped N roll →
  ¬ ((0 ≤ i < Z.of_nat N)%Z ∧ (0 ≤ pitchIndex < Z.of_nat NUM_PITCHES)%Z) →
  setCell roll i pitchIndex voice = Throws TypeError.
Proof.
  intros Hsh Hout. pose proof Hsh as [Hlen Hsteps]. unfold setCell.
  destruct (decide (i < 0)%Z); [by rewrite index_negative|].
  rewrite index_nonneg by lia.
  destruct (roll !! Z.to_nat i) as [step|] eqn:Hstep; [|done].
  pose proof (lookup_lt_Some _ _ _ Hstep).
  destruct (Forall_lookup_1 _ _ _ _ Hsteps Hstep) as [Hrows _].
  destruct (decide (pitchIndex < 0)%Z); [by rewrite index_negative|].
  rewrite index_nonneg by lia.
  rewrite lookup_ge_None_2; [done|]. lia.
Qed.

Lemma encodeNote_out_of_range N roll note :
  shaped N roll → validVoice note →
  (quantizedStartStep note < quantizedEndStep note)%Z →
  ¬ inRange N note →
  encodeNote roll note = Throws TypeError.
Proof.
  intros Hsh Hv Hlen Hout. unfold encodeNote, validVoice in *.
  rewrite bool_decide_eq_false_2 by lia.
  set (start := quantizedStartStep note) in *.
  set (d := Z.to_nat (quantizedEndStep note - start)).
  set (pitchIndex := (pitch note - MIN_PITCH)%Z).
  destruct (decide ((0 ≤ pitchIndex < Z.of_nat NUM_PITCHES)%Z ∧ (0 ≤ start)%Z))
    as [[Hp Hs]|Hfirst].
  - assert (Z.of_nat N < quantizedEndStep note)%Z as Hend.
    { unfold inRange, pitchIndex in *. fold start in Hout. lia. }
    set (m := Z.to_nat (Z.of_nat N - start)).
    replace d with (m + S (d - m - 1)) by lia.
    rewrite seq_app, forEach_app.
    destruct (fill_shaped N roll start pitchIndex (instrument note) (seq 0 m))
      as (roll1 & -> & Hsh1); [done..| |].
    { apply Forall_forall. intros k Hk%elem_of_seq. lia. }
    simpl. rewrite setCell_out_of_range with (N := N); [done..|]. lia.
  - replace d with (S (d - 1)) by lia. simpl.
    rewrite setCell_out_of_range with (N := N); [done..|]. lia.
Qed.

(** A note with a valid voice and positive length whose pitch or steps
    fall outside the tensor makes the call throw a [TypeError], when the
    notes before it are in range. *)
Theorem sequenceToPianoroll_out_of_range ns N before note after :
  notes ns = before ++ note :: after →
  Forall (λ n, validVoice n ∧ inRange N n) before →
  validVoice note →
  (quantizedStartStep note < quantizedEndStep note)%Z →
  ¬ inRange N note →
  sequenceToPianoroll ns N = Throws TypeError.
Proof.
  intros Hnotes Hbefore Hv Hlen Hout. unfold sequenceToPianoroll.
  rewrite Hnotes, forEach_app.
  destruct (encodeNotes_cell N (buildEmptyPianoroll N) before)
    as (roll1 & -> & Hsh1 & _); [apply buildEmptyPianoroll_shaped|done|].
  simpl. by rewrite (encodeNote_out_of_range N).
Qed.

Lemma encodeNote_empty_length roll note :
  validVoice note → (quantizedEndStep note ≤ quantizedStartStep note)%Z →
  encodeNote roll note = Returns roll.
Proof.
  intros Hv Hlen. unfold encodeNote, validVoice in *.
  rewrite bool_decide_eq_false_2 by lia.
  by replace (Z.to_nat _) with 0 by lia.
Qed.

(** Notes whose end step is not after their start step are skipped,
    whatever their pitch: a sequence of such notes (or without notes)
    encodes to the all-zero tensor, and decoding that tensor throws. *)
Theorem sequenceToPianoroll_empty_length_notes ns N :
  Forall (λ n, validVoice n
               ∧ (quantizedEndStep n ≤ quantizedStartStep n)%Z) (notes ns) →
  sequenceToPianoroll ns N = Returns (buildEmptyPianoroll N)
  ∧ (∀ s p v, s < N → p < NUM_PITCHES → v < 4 →
       cell (buildEmptyPianoroll N) s p v = Some 0%Z)
  ∧ pianorollToSequence (buildEmptyPianoroll N) = Throws TypeError.
Proof.
  intros Hall. split_and!.
  - unfold sequenceToPianoroll. generalize (buildEmptyPianoroll N) as roll.
    induction Hall as [|note l [Hv Hlen] _ IH]; intros roll; [done|].
    simpl. rewrite encodeNote_empty_length by done. apply IH.
  - apply buildEmptyPianoroll_cell.
  - unfold pianorollToSequence. rewrite emittedNotes_empty; [done|].
    intros s p v x Hc.
    destruct (cell_Some_bounds N _ s p v x (buildEmptyPianoroll_shaped N) Hc)
      as (Hs & Hp & Hv).
    rewrite buildEmptyPianoroll_cell in Hc by done. by injection Hc as <-.
Qed.

End EncodeEdges.

(** ** Reshaping a flattened tensor *)

Section Flatten.
Import Coconet.
Context {A : Type}.
Implicit Types (roll : Pianoroll A).

Lemma length_join_same {B} (n : nat) (ls : list (list B)) :
  Forall (λ l, length l = n) ls → length (mjoin ls) = length ls * n.
Proof.
  induction 1 as [|l ls Hl _ IH]; [done|].
  simpl. rewrite length_app, IH, Hl. lia.
Qed.

Lemma shaped_rows N roll :
  shaped N roll →
  length (mjoin roll) = N * NUM_PITCHES
  ∧ Forall (λ row, length row = 4) (mjoin roll).
Proof.
  intros [Hlen Hsteps]. split.
  - rewrite (length_join_same NUM_PITCHES), Hlen; [done|].
    eapply Forall_impl; [done|]. by intros step [? _].
  - apply Forall_join. eapply Forall_impl; [done|]. by intros step [_ ?].
Qed.

Lemma flatten_lookup N roll s p v :
  shaped N roll → s < N → p < NUM_PITCHES → v < 4 →
  mjoin (mjoin roll) !! (s * NUM_PITCHES * 4 + p * 4 + v) = cell roll s p v.
Proof.
  intros Hsh Hs Hp Hv.
  destruct (shaped_lookup N roll s p Hsh Hs Hp)
    as (step & row & Hstep & Hrow & _ & Hlrow).
  destruct (lookup_lt_is_Some_2 row v) as [x Hx]; [lia|].
  rewrite (cell_lookup roll s p v step row), Hx by done.
  destruct (shaped_rows N roll Hsh) as [_ Hrows].
  replace (s * NUM_PITCHES * 4 + p * 4 + v)
    with ((s * NUM_PITCHES + p) * 4 + v) by lia.
  apply (join_lookup_Some_same_length' 4); [done..|].
  exists row. split; [|done].
  apply (join_lookup_Some_same_length' NUM_PITCHES); [|done|by eauto].
  destruct Hsh as [_ Hsteps]. eapply Forall_impl; [done|]. by intros ? [? _].
Qed.

(** [flatArrayToPianoroll] undoes the row-major flattening: for a tensor of
    shape [[N][46][4]], reshaping the concatenation of its rows returns the
    tensor. *)
Theorem flatArrayToPianoroll_flatten N roll :
  shaped N roll →
  flatArrayToPianoroll (mjoin (mjoin roll)) N = Returns roll.
Proof.
  intros Hsh.
  destruct (flatArrayToPianoroll_rows (mjoin (mjoin roll)) N)
    as (roll' & Hret & HN & Hsteps & Hrows).
  rewrite Hret. f_equal.
  assert (length (mjoin (mjoin roll)) = N * NUM_PITCHES * 4) as Hflat.
  { destruct (shaped_rows N roll Hsh) as [Hlen Hall].
    by rewrite (length_join_same 4), Hlen. }
  apply (shaped_ext N); [|done|].
  - split; [done|]. apply Forall_lookup_2. intros s step Hs.
    split; [by eapply Hsteps|]. apply Forall_lookup_2. intros p row Hp.
    destruct (Hrows _ _ _ _ Hs Hp) as (? & ? & ->).
    rewrite slice_length. unfold NUM_PITCHES in *. lia.
  - intros s p v Hs Hp Hv.
    rewrite (flatArrayToPianoroll_cell _ N) by done.
    by apply (flatten_lookup N).
Qed.

End Flatten.

(** ** The validation of the export and its errors *)

Section ExportErrors.
Import MidiIO.
Context `{Constants}.
Implicit Types (ns : INoteSequence).

Lemma applyDefaults_tempos ns :
  tempos (applyDefaults ns)
  = if missing (tempos ns)
    then Some [ {| Tempo.time := 0;
                   Tempo.qpm := DEFAULT_QUARTERS_PER_MINUTE |} ]
    else tempos ns.
Proof.
  unfold applyDefaults.
  destruct (missing (tempos ns)) eqn:Ht; simpl;
    destruct (missing (timeSignatures ns)); simpl; by rewrite ?Ht.
Qed.

Lemma applyDefaults_timeSignatures ns :
  timeSignatures (applyDefaults ns)
  = if missing (timeSignatures ns)
    then Some [ {| TimeSignature.time := 0;
                   TimeSignature.numerator := 4;
                   TimeSignature.denominator := 4 |} ]
    else timeSignatures ns.
Proof.
  unfold applyDefaults.
  destruct (missing (tempos ns)); simpl;
    destruct (missing (timeSignatures ns)) eqn:Hs; simpl; by rewrite ?Hs.
Qed.

Lemma applyDefaults_not_missing ns :
  missing (tempos (applyDefaults ns)) = false
  ∧ missing (timeSignatures (applyDefaults ns)) = false.
Proof.
  rewrite applyDefaults_tempos, applyDefaults_timeSignatures.
  split; [destruct (missing (tempos ns)) eqn:Hm
         |destruct (missing (timeSignatures ns)) eqn:Hm]; done.
Qed.

Lemma Qeq_bool_false (x y : Q) : ¬ (x == y)%Q → Qeq_bool x y = false.
Proof.
  intros Hne. destruct (Qeq_bool x y) eqn:Heq; [|done].
  by apply Qeq_bool_iff in Heq.
Qed.

(** The checks on tempos and time signatures, in the order the code makes
    them.  Two or more tempos, or a single tempo not at time 0, give the
    tempo error whatever the time signatures and the notes are; with tempos
    absent, empty or a single one at time 0, the same faults of the time
    signatures give the time-signature error whatever the notes are. *)
Theorem sequenceProtoToMidi_rejects ns :
  (∀ tempo0 rest,
     tempos ns = Some (tempo0 :: rest) →
     rest ≠ [] ∨ ¬ (Tempo.time tempo0 == 0)%Q →
     (sequenceProtoToMidi ns).2 = Throws tempoError)
  ∧ (∀ timeSignature0 rest,
       missing (tempos ns) = true ∨ singleTempoAtZero ns →
       timeSignatures ns = Some (timeSignature0 :: rest) →
       rest ≠ [] ∨ ¬ (TimeSignature.time timeSignature0 == 0)%Q →
       (sequenceProtoToMidi ns).2 = Throws timeSignatureError).
Proof.
  destruct (applyDefaults_not_missing ns) as [Hmt Hms].
  split.
  - intros tempo0 rest Htempos Hbad.
    unfold sequenceProtoToMidi, exportValidated. simpl.
    rewrite applyDefaults_tempos, Htempos in *. simpl.
    destruct (timeSignatures (applyDefaults ns)) as [[|ts0 tss]|]; [done| |done].
    destruct Hbad as [Hrest|Htime].
    + rewrite bool_decide_eq_true_2; [done|]. destruct rest; simpl; [done|lia].
    + by rewrite (Qeq_bool_false _ _ Htime), orb_true_r.
  - intros ts0 rest Htempos Hts Hbad.
    unfold sequenceProtoToMidi, exportValidated. simpl.
    rewrite applyDefaults_timeSignatures, Hts. simpl.
    rewrite applyDefaults_tempos.
    assert (∃ tempo0, (if missing (tempos ns)
                       then Some [ {| Tempo.time := 0;
                                      Tempo.qpm := DEFAULT_QUARTERS_PER_MINUTE |} ]
                       else tempos ns) = Some [tempo0]
                      ∧ Qeq_bool (Tempo.time tempo0) 0 = true)
      as (tempo0 & -> & Htime).
    { destruct Htempos as [->|(tempo0 & Ht & Htime)]; [by eexists|].
      rewrite Ht. simpl. exists tempo0. by rewrite Qeq_bool_iff. }
    simpl. rewrite Htime. simpl.
    destruct Hbad as [Hrest|Htime'].
    + rewrite bool_decide_eq_true_2; [done|]. destruct rest; simpl; [done|lia].
    + by rewrite (Qeq_bool_false _ _ Htime'), orb_true_r.
Qed.

Lemma exportTracks_throws (tracks : Map (list Note.t)) (instruments : list Z)
    (start len : nat) (json : list Track.t) e :
  (∀ j, instruments !! j = Some (Z.of_nat j) →
        ∃ note0 rest, mapGet tracks (Z.of_nat j) = Some (note0 :: rest)) →
  forEach (exportTrack tracks instruments) (seq start len) json = Throws e →
  e = instrumentError.
Proof.
  intros Hget. revert start json.
  induction len as [|len IH]; intros start json; [done|]. simpl.
  destruct (exportTrack tracks instruments json start) as [json1|e1] eqn:Hstep.
  - rewrite outcome_bind_apply. apply IH.
  - intros [= <-]. unfold exportTrack in Hstep.
    case_bool_decide as Hi; [by injection Hstep|].
    destruct (Hget start Hi) as (note0 & rest & Hsome).
    by rewrite Hsome in Hstep.
Qed.


End ExportErrors.

(** ** What an exported structure holds *)

Section ExportedTracks.
Import MidiIO.
Context `{Constants}.
Implicit Types (ns : INoteSequence).

(** A returned export loses and duplicates no note: track [j] has
    identifier [j] and holds the exported notes of instrument [j] in their
    order in the sequence, no track is empty, and the notes of all tracks
    together are the exported notes of the sequence, reordered. *)
Theorem sequenceProtoToMidi_keeps_notes ns json :
  (sequenceProtoToMidi ns).2 = Returns json →
  (∀ j track, tracks json !! j = Some track →
     Track.id track = Z.of_nat j
     ∧ Track.notes track = exportNote <$> group (Z.of_nat j) (notes ns)
     ∧ Track.notes track ≠ [])
  ∧ mjoin (Track.notes <$> tracks json) ≡ₚ exportNote <$> notes ns.
Proof.
  unfold sequenceProtoToMidi. simpl.
  intros (k & Hinstr & Htracks)%exportValidated_returns.
  pose proof (applyDefaults_notes ns) as Hnotes.
  rewrite Hnotes in Hinstr, Htracks. split.
  - intros j track Hj.
    destruct (Forall2_lookup_r _ _ _ j _ Htracks Hj)
      as (j' & Hj' & note0 & rest & Hg & ->).
    apply lookup_seq in Hj' as [-> _]. change (0 + j) with j in *.
    simpl. by rewrite Hg.
  - assert (Track.notes <$> tracks json
            = (λ j, exportNote <$> group (Z.of_nat j) (notes ns)) <$> seq 0 k)
      as ->.
    { apply list_eq. intros j. rewrite !list_lookup_fmap.
      destruct (decide (j < k)) as [Hlt|Hge].
      - destruct (Forall2_lookup_l _ _ _ j j Htracks)
          as (track & -> & note0 & rest & Hg & ->); [by apply lookup_seq_lt|].
        rewrite lookup_seq_lt by done. simpl. by rewrite Hg.
      - rewrite lookup_seq_ge by lia.
        apply Forall2_length in Htracks. rewrite length_seq in Htracks.
        rewrite lookup_ge_None_2 by lia. done. }
    assert (∀ n, mjoin ((λ j, exportNote <$> group (Z.of_nat j) (notes ns))
                          <$> seq 0 n)
                 = exportNote <$> grouped n (notes ns)) as ->.
    { intros n. induction n as [|n IH]; [done|].
      rewrite grouped_S, fmap_app, seq_S, fmap_app, join_app, IH. simpl.
      by rewrite app_nil_r. }
    apply fmap_Permutation, grouped_Permutation, Forall_forall.
    intros note Hnote. apply Hinstr. eauto.
Qed.

End ExportedTracks.

(** ** The header of an imported sequence, and MIDI to sequence to MIDI *)

Section ImportedHeader.
Import MidiIO.
Implicit Types (st : ImportState.t) (track : Track.t) (tracks : list Track.t).

Lemma mjoin_cons {A} (l : list A) (ls : list (list A)) :
  mjoin (l :: ls) = l ++ mjoin ls.
Proof. done. Qed.

Lemma importNotes_frame track st (midiNotes : list MidiNote.t) :
  let ns' := ImportState.ns (foldl (importNote track) st midiNotes) in
  ticksPerQuarter ns' = ticksPerQuarter (ImportState.ns st)
  ∧ sourceInfo ns' = sourceInfo (ImportState.ns st)
  ∧ timeSignatures ns' = timeSignatures (ImportState.ns st)
  ∧ tempos ns' = tempos (ImportState.ns st).
Proof.
  revert st. induction midiNotes as [|note midiNotes IH]; intros st; [done|].
  simpl. destruct (IH (importNote track st note)) as (-> & -> & -> & ->).
  unfold importNote. simpl. by destruct (Qle_bool _ _).
Qed.

Lemma importTrack_frame st track :
  let ns' := ImportState.ns (importTrack st track) in
  ticksPerQuarter ns' = ticksPerQuarter (ImportState.ns st)
  ∧ sourceInfo ns' = sourceInfo (ImportState.ns st)
  ∧ timeSignatures ns' = timeSignatures (ImportState.ns st)
  ∧ tempos ns' = tempos (ImportState.ns st).
Proof.
  unfold importTrack. destruct (bool_decide _).
  - exact (importNotes_frame track
             {| ImportState.instrumentNumber :=
                  ImportState.instrumentNumber st + 1;
                ImportState.ns := ImportState.ns st |} (Track.notes track)).
  - exact (importNotes_frame track st (Track.notes track)).
Qed.

Lemma importTracks_frame st tracks :
  let ns' := ImportState.ns (foldl importTrack st tracks) in
  ticksPerQuarter ns' = ticksPerQuarter (ImportState.ns st)
  ∧ sourceInfo ns' = sourceInfo (ImportState.ns st)
  ∧ timeSignatures ns' = timeSignatures (ImportState.ns st)
  ∧ tempos ns' = tempos (ImportState.ns st).
Proof.
  revert st. induction tracks as [|track tracks IH]; intros st; [done|].
  simpl. destruct (IH (importTrack st track)) as (-> & -> & -> & ->).
  apply importTrack_frame.
Qed.

(** The header fields of the imported sequence, together with its notes. *)
Lemma midiToSequenceProto_fields parsedMidi :
  ∃ ns, midiToSequenceProto parsedMidi = Returns ns
    ∧ ticksPerQuarter ns = Some (Header.PPQ (header parsedMidi))
    ∧ sourceInfo ns
      = Some {| SourceInfo.parser := SourceInfo.TONEJS_MIDI_CONVERT;
                SourceInfo.encodingType := SourceInfo.MIDI |}
    ∧ tempos ns
      = Some [ {| Tempo.time := 0;
                  Tempo.qpm := Header.bpm (header parsedMidi) |} ]
    ∧ timeSignatures ns
      = Some [ {| TimeSignature.time := 0;
                  TimeSignature.numerator :=
                    (default (4, 4)%Z
                       (Header.timeSignature (header parsedMidi))).1;
                  TimeSignature.denominator :=
                    (default (4, 4)%Z
                       (Header.timeSignature (header parsedMidi))).2 |} ]
    ∧ notes ns
      = mjoin (imap (λ j track,
          createNote (Z.of_nat (nonEmptyBefore (tracks parsedMidi) j)) track
            <$> Track.notes track) (tracks parsedMidi)).
Proof.
  destruct (midiToSequenceProto_returns parsedMidi) as (ns & Hret & Hn & _).
  exists ns. split; [done|]. unfold midiToSequenceProto in Hret.
  injection Hret as <-.
  match goal with
  | |- context [foldl importTrack ?st0 _] =>
      destruct (importTracks_frame st0 (tracks parsedMidi))
        as (Hq & Hs & Hts & Ht)
  end.
  rewrite Hq, Hs, Hts, Ht. simpl. split_and!; [done..| |done].
  by destruct (Header.timeSignature (header parsedMidi)) as [[n d]|].
Qed.

Lemma endTimes_imported (g : nat → Z) tracks :
  Note.endTime <$> mjoin (imap (λ j track,
                     createNote (g j) track <$> Track.notes track) tracks)
  = endTimes tracks.
Proof.
  unfold endTimes. revert g.
  induction tracks as [|track tracks IH]; intros g; [done|].
  rewrite imap_cons, mjoin_cons, fmap_app. simpl. f_equal.
  - rewrite <- list_fmap_compose. by apply list_fmap_ext.
  - apply (IH (g ∘ S)).
Qed.

(** The import never throws, and the sequence it returns carries the
    file's resolution, the source information, exactly one tempo at time 0
    with the file's bpm, and exactly one time signature at time 0: the
    file's, or 4/4 when the file has none.  The end times of its notes are
    those of the MIDI notes, in the order of the tracks. *)
Theorem midiToSequenceProto_header parsedMidi :
  ∃ ns, midiToSequenceProto parsedMidi = Returns ns
    ∧ ticksPerQuarter ns = Some (Header.PPQ (header parsedMidi))
    ∧ sourceInfo ns
      = Some {| SourceInfo.parser := SourceInfo.TONEJS_MIDI_CONVERT;
                SourceInfo.encodingType := SourceInfo.MIDI |}
    ∧ tempos ns
      = Some [ {| Tempo.time := 0;
                  Tempo.qpm := Header.bpm (header parsedMidi) |} ]
    ∧ timeSignatures ns
      = Some [ {| TimeSignature.time := 0;
                  TimeSignature.numerator :=
                    (default (4, 4)%Z
                       (Header.timeSignature (header parsedMidi))).1;
                  TimeSignature.denominator :=
                    (default (4, 4)%Z
                       (Header.timeSignature (header parsedMidi))).2 |} ]
    ∧ Note.endTime <$> notes ns = endTimes (tracks parsedMidi).
Proof.
  destruct (midiToSequenceProto_fields parsedMidi)
    as (ns & Hret & Hq & Hs & Ht & Hts & Hn).
  exists ns. split_and!; [done..|]. rewrite Hn.
  apply (endTimes_imported
           (λ j, Z.of_nat (nonEmptyBefore (tracks parsedMidi) j))).
Qed.

End ImportedHeader.

Section MidiToMidi.
Import MidiIO.
Context `{Constants}.
Implicit Types (track : Track.t) (tracks : list Track.t).

(** The imported notes, track by track over the tracks that have notes. *)
Lemma imported_notes_filter tracks (off : nat) :
  mjoin (imap (λ j track,
           createNote (Z.of_nat (off + nonEmptyBefore tracks j)) track
             <$> Track.notes track) tracks)
  = mjoin (imap (λ i track,
             createNote (Z.of_nat (off + i)) track <$> Track.notes track)
             (filter nonEmpty tracks)).
Proof.
  revert off. induction tracks as [|track tracks IH]; intros off; [done|].
  rewrite imap_cons, mjoin_cons.
  destruct (decide (nonEmpty track)) as [Hne|Hne].
  - rewrite filter_cons_True, imap_cons, mjoin_cons by done. f_equal.
    erewrite imap_ext; [erewrite (imap_ext _ _ (filter _ _));
                        [apply (IH (S off))|]|].
    + intros i t _. simpl. do 2 f_equal. lia.
    + intros j t _. simpl. rewrite nonEmptyBefore_cons.
      rewrite bool_decide_eq_true_2 by done. do 2 f_equal. lia.
  - rewrite filter_cons_False by done.
    assert (Track.notes track = []) as ->.
    { unfold nonEmpty in Hne. destruct (Track.notes track); [done|].
      simpl in Hne. lia. }
    simpl. erewrite imap_ext; [apply (IH off)|].
    intros j t _. simpl. rewrite nonEmptyBefore_cons.
    rewrite bool_decide_eq_false_2 by done. do 2 f_equal.
Qed.

Lemma imported_notes_tracks tracks :
  mjoin (imap (λ j track,
           createNote (Z.of_nat (nonEmptyBefore tracks j)) track
             <$> Track.notes track) tracks)
  = mjoin (imap (λ i track,
             createNote (Z.of_nat i) track <$> Track.notes track)
             (filter nonEmpty tracks)).
Proof. exact (imported_notes_filter tracks 0). Qed.

Lemma group_join (i : Z) (ls : list (list Note.t)) :
  group i (mjoin ls) = mjoin (group i <$> ls).
Proof.
  induction ls as [|l ls IH]; [done|].
  by rewrite fmap_cons, !mjoin_cons, group_app, IH.
Qed.

Lemma group_block (i j : nat) track (l : list MidiNote.t) :
  group (Z.of_nat i) (createNote (Z.of_nat j) track <$> l)
  = if decide (j = i) then createNote (Z.of_nat j) track <$> l else [].
Proof.
  unfold group. induction l as [|note l IH]; [by destruct (decide _)|].
  rewrite fmap_cons, filter_cons, IH.
  rewrite instrumentOf_default. simpl.
  destruct (decide (j = i)) as [Heq|Hne];
    destruct (decide (Z.of_nat j = Z.of_nat i)); (done || lia).
Qed.

Lemma join_imap_nil {A B} (l : list A) :
  mjoin (imap (λ _ _, @nil B) l) = [].
Proof. induction l as [|x l IH]; [done|]. by rewrite imap_cons, mjoin_cons. Qed.

Lemma join_imap_single {A B} (g : nat → A → list B) (l : list A) (i : nat) :
  mjoin (imap (λ j x, if decide (j = i) then g j x else []) l)
  = from_option (g i) [] (l !! i).
Proof.
  revert g i. induction l as [|x l IH]; intros g i; [done|].
  rewrite imap_cons, mjoin_cons. cbn beta. destruct i as [|i].
  - destruct (decide (0 = 0)); [|done]. simpl.
    erewrite imap_ext; [rewrite join_imap_nil; apply app_nil_r|].
    intros j y _. simpl. by destruct (decide (S j = 0)).
  - destruct (decide (0 = S i)); [done|]. simpl.
    erewrite imap_ext; [apply (IH (g ∘ S) i)|].
    intros j y _. simpl.
    destruct (decide (j = i)), (decide (S j = S i)); (done || lia).
Qed.

(** The notes of instrument [i] of an imported sequence are the notes of
    the [i]-th track that has notes. *)
Lemma imported_group tracks (i : nat) :
  group (Z.of_nat i)
    (mjoin (imap (λ j track,
              createNote (Z.of_nat (nonEmptyBefore tracks j)) track
                <$> Track.notes track) tracks))
  = from_option
      (λ track, createNote (Z.of_nat i) track <$> Track.notes track) []
      (filter nonEmpty tracks !! i).
Proof.
  rewrite imported_notes_tracks, group_join, fmap_imap.
  erewrite imap_ext; [apply (join_imap_single
    (λ j track, createNote (Z.of_nat j) track <$> Track.notes track))|].
  intros j track _. simpl. apply group_block.
Qed.

Lemma instrumentOf_imported tracks (note : Note.t) :
  note ∈ mjoin (imap (λ j track,
                  createNote (Z.of_nat (nonEmptyBefore tracks j)) track
                    <$> Track.notes track) tracks) →
  Note.instrument note = Some (instrumentOf note).
Proof.
  intros Hin. apply list_elem_of_join in Hin as (l & Hin & Hl).
  apply elem_of_lookup_imap in Hl as (j & track & -> & Hj).
  apply list_elem_of_fmap in Hin as (midiNote & -> & Hm).
  by rewrite instrumentOf_default.
Qed.

Lemma noteKept_export_import (j : Z) track (note : MidiNote.t) :
  noteKept note (exportNote (createNote j track note)).
Proof. by unfold noteKept, exportNote, createNote. Qed.

(** A MIDI file with at most ten tracks that have notes goes through the
    import and the export: the export returns and leaves the imported
    sequence as it is; the header keeps the bpm and the time signature
    (4/4 when the file has none) and the resolution (the default one when
    the file's is 0); the tracks of the result are the tracks with notes,
    in order, each with its program and percussion flag, a channel chosen by
    that flag, and its notes with pitch and time kept, the duration
    recomputed as [(time + duration) - time] and the velocity requantised. *)
Theorem midi_to_sequence_to_midi parsedMidi :
  length (filter nonEmpty (tracks parsedMidi)) ≤ 10 →
  ∃ ns json,
    midiToSequenceProto parsedMidi = Returns ns
    ∧ sequenceProtoToMidi ns = (ns, Returns json)
    ∧ Header.bpm (header json) = Header.bpm (header parsedMidi)
    ∧ Header.PPQ (header json)
      = (if decide (Header.PPQ (header parsedMidi) = 0%Z)
         then DEFAULT_TICKS_PER_QUARTER else Header.PPQ (header parsedMidi))
    ∧ Header.timeSignature (header json)
      = Some (default (4, 4)%Z (Header.timeSignature (header parsedMidi)))
    ∧ length (tracks json) = length (filter nonEmpty (tracks parsedMidi))
    ∧ ∀ j track,
        filter nonEmpty (tracks parsedMidi) !! j = Some track →
        ∃ out, tracks json !! j = Some out ∧ trackKept j track out.
Proof.
  intros Hten.
  destruct (midiToSequenceProto_fields parsedMidi)
    as (ns & Hret & Hq & Hs & Ht & Hts & Hn).
  set (m := length (filter nonEmpty (tracks parsedMidi))) in *.
  assert (∀ i, (∃ note, note ∈ notes ns ∧ instrumentOf note = i)
               ↔ (0 ≤ i < Z.of_nat m)%Z) as Hinstr.
  { intros i. unfold m.
    rewrite <- (imported_instruments (tracks parsedMidi) i), <- Hn.
    split; intros (note & Hin & Hi); exists note; (split; [done|]).
    - rewrite Hn in Hin. apply instrumentOf_imported in Hin. congruence.
    - rewrite instrumentOf_default, Hi. done. }
  destruct (exportValidated_ok ns m _ _ Ht (Qeq_refl _) Hts (Qeq_refl _)
              Hten Hinstr) as (json & Hexport & Hheader & Hlen).
  exists ns, json. split; [done|]. split.
  { unfold sequenceProtoToMidi.
    rewrite applyDefaults_present by (by rewrite ?Ht, ?Hts).
    by rewrite Hexport. }
  rewrite Hheader. unfold exportedHeader. rewrite Hq. simpl.
  split_and!; [done|done| |done|].
  { by destruct (default _ _). }
  intros j track Hj.
  apply exportValidated_returns in Hexport as (k & _ & Htracks).
  pose proof (lookup_lt_Some _ _ _ Hj) as Hjm. fold m in Hjm.
  assert (k = m) as ->.
  { apply Forall2_length in Htracks. rewrite length_seq in Htracks. lia. }
  destruct (Forall2_lookup_l _ _ _ j j Htracks)
    as (out & Hout & note0 & rest & Hg & ->); [by apply lookup_seq_lt|].
  exists (makeTrack j note0 (note0 :: rest)). split; [done|].
  rewrite Hn, imported_group, Hj in Hg. simpl in Hg.
  destruct (Track.notes track) as [|midiNote midiNotes] eqn:Hnotes; [done|].
  injection Hg as <- <-.
  unfold trackKept. rewrite Hnotes. simpl. split_and!; [done..|].
  constructor; [apply noteKept_export_import|].
  apply Forall2_fmap_r, Forall2_fmap_r, Forall_Forall2_diag, Forall_forall.
  intros note _. apply noteKept_export_import.
Qed.

End MidiToMidi.

(** ** No export with more than ten tracks *)

Section MoreThanTen.
Import MidiIO.
Context `{Constants}.
Implicit Types (x y : Z) (l : list Z) (ns : INoteSequence).

Lemma sortCompareLt_asym x y :
  sortCompareLt x y = true → sortCompareLt y x = false.
Proof.
  unfold sortCompareLt, String.ltb.
  rewrite (String.compare_antisym (toString y) (toString x)).
  by destruct (String.compare (toString x) (toString y)).
Qed.

(** Whatever the elements are, no element of the sorted array is followed
    directly by one whose string is smaller. *)
Lemma sortInsert_adjacent x l :
  Sorted (λ a b, sortCompareLt b a = false) l →
  Sorted (λ a b, sortCompareLt b a = false) (sortInsert x l).
Proof.
  induction l as [|y rest IH]; intros Hsorted; simpl.
  { by repeat constructor. }
  apply Sorted_inv in Hsorted as [Hrest Hhead].
  destruct (sortCompareLt y x) eqn:Hyx.
  - constructor; [by apply IH|].
    destruct rest as [|z rest']; simpl.
    + constructor. by apply sortCompareLt_asym.
    + destruct (sortCompareLt z x); constructor.
      * by apply HdRel_inv in Hhead.
      * by apply sortCompareLt_asym.
  - constructor; [by constructor|]. by constructor.
Qed.

Lemma sort_adjacent l : Sorted (λ a b, sortCompareLt b a = false) (JS.sort l).
Proof.
  induction l as [|x l IH]; [constructor|].
  change (JS.sort (x :: l)) with (sortInsert x (JS.sort l)).
  by apply sortInsert_adjacent.
Qed.

Lemma Sorted_lookup {A} (R : A → A → Prop) (l : list A) (i : nat) a b :
  Sorted R l → l !! i = Some a → l !! S i = Some b → R a b.
Proof.
  intros Hsorted. revert i. induction Hsorted as [|c l Hsorted IH Hhead];
    intros i Ha Hb; [done|].
  destruct i as [|i].
  - injection Ha as ->. destruct l as [|d l]; [done|].
    injection Hb as ->. by apply HdRel_inv in Hhead.
  - by apply (IH i).
Qed.

(** The track loop runs to its end over at most ten instruments: with
    eleven, the array would hold 9 directly before 10, which [sort()] never
    produces. *)
Lemma exportTracks_at_most_ten (tracks : Map (list Note.t)) (keys : list Z)
    (json : list Track.t) :
  forEach (exportTrack tracks (JS.sort keys))
          (seq 0 (length (JS.sort keys))) [] = Returns json →
  length (JS.sort keys) ≤ 10
  ∧ length json = length (JS.sort keys)
  ∧ ∀ j, j < length json → JS.sort keys !! j = Some (Z.of_nat j).
Proof.
  intros (new & -> & Hnew)%exportTracks_returns. simpl.
  pose proof (Forall2_length _ _ _ Hnew) as Hlen. rewrite length_seq in Hlen.
  assert (∀ j, j < length new → JS.sort keys !! j = Some (Z.of_nat j))
    as Hat.
  { intros j Hj.
    destruct (Forall2_lookup_l _ _ _ j j Hnew) as (track & _ & Hij & _);
      [apply lookup_seq_lt; lia|done]. }
  split_and!; [|done..].
  destruct (decide (length (JS.sort keys) ≤ 10)) as [|Hmore]; [done|].
  pose proof (Sorted_lookup _ _ 9 _ _ (sort_adjacent keys)
                (Hat 9 ltac:(lia)) (Hat 10 ltac:(lia))) as Hcmp.
  by vm_compute in Hcmp.
Qed.

(** An export that returns has at most ten tracks. *)
Theorem sequenceProtoToMidi_at_most_ten_tracks ns json :
  (sequenceProtoToMidi ns).2 = Returns json → length (tracks json) ≤ 10.
Proof.
  unfold sequenceProtoToMidi, exportValidated. simpl.
  destruct (tempos (applyDefaults ns)) as [[|tempo0 ts]|]; [done| |done].
  destruct (timeSignatures (applyDefaults ns)) as [[|ts0 tss]|];
    [done| |done].
  destruct (_ || _); [done|]. destruct (_ || _); [done|].
  match goal with
  | |- context [forEach ?body ?l []] =>
      destruct (forEach body l []) as [new|e] eqn:Hloop
  end; [|done].
  rewrite outcome_bind_apply. intros [= <-]. simpl.
  apply exportTracks_at_most_ten in Hloop as (Hten & Hlen & _). lia.
Qed.

(** A sequence with one tempo and one time signature at time 0 in which
    each of the instruments 0, …, 10 has a note is never exported: the
    instrument error is thrown, whatever other notes there are. *)
Theorem sequenceProtoToMidi_eleven_or_more_throws ns :
  singleTempoAtZero ns → singleTimeSignatureAtZero ns →
  (∀ i, (0 ≤ i ≤ 10)%Z → ∃ note, note ∈ notes ns ∧ instrumentOf note = i) →
  (sequenceProtoToMidi ns).2 = Throws instrumentError.
Proof.
  intros (tempo0 & Htempos & Htempo0) (ts0 & Hts & Hts0) Hinstr.
  unfold sequenceProtoToMidi. simpl.
  rewrite applyDefaults_present by (by rewrite ?Htempos, ?Hts).
  unfold exportValidated. rewrite Htempos, Hts. simpl.
  apply Qeq_bool_iff in Htempo0, Hts0. rewrite Htempo0, Hts0. simpl.
  match goal with
  | |- context [forEach ?body ?l []] =>
      destruct (forEach body l []) as [new|e] eqn:Hloop
  end.
  - apply exportTracks_at_most_ten in Hloop as (Hten & Hlen & Hat).
    exfalso.
    assert (10%Z ∈ JS.sort (mapKeys (foldl groupNote [] (notes ns))))
      as [j Hj]%list_elem_of_lookup.
    { apply elem_of_sort, groupNotes_keys, Hinstr. lia. }
    pose proof (lookup_lt_Some _ _ _ Hj) as Hlt.
    rewrite Hat in Hj by lia. injection Hj as Hj. lia.
  - simpl. f_equal. eapply exportTracks_throws; [|done].
    intros j Hj%list_elem_of_lookup_2.
    apply elem_of_sort, groupNotes_keys, group_nonempty in Hj.
    rewrite groupNotes_get.
    destruct (group (Z.of_nat j) (notes ns)); [done|by eauto].
Qed.

End MoreThanTen.

(** ** Times and drum flags through the round trip *)

Section RoundTripTimes.
Import MidiIO.
Context `{Constants}.
Implicit Types (ns : INoteSequence) (note : Note.t).




End RoundTripTimes.

(** ** The velocity of an imported note *)

Section ImportedVelocity.
Import MidiIO.

(** The velocity of an imported note is a MIDI velocity, 0 to 127, exactly
    when the normalised velocity of the MIDI note is at least 0 and below
    1; the normalised velocity 1 is imported as 128. *)
Theorem createNote_velocity_range (k : Z) (track : Track.t)
    (note : MidiNote.t) :
  ∃ v, Note.velocity (createNote k track note) = Some v
    ∧ ((0 ≤ v < MIDI_VELOCITIES)%Z
       ↔ (0 <= MidiNote.velocity note)%Q ∧ (MidiNote.velocity note < 1)%Q)
    ∧ ((MidiNote.velocity note == 1)%Q → v = MIDI_VELOCITIES).
Proof.
  eexists. split; [reflexivity|].
  set (x := MidiNote.velocity note). unfold MIDI_VELOCITIES.
  pose proof (Qfloor_le (x * inject_Z 128)) as Hlow.
  pose proof (Qlt_floor (x * inject_Z 128)) as Hhigh.
  set (f := Qfloor (x * inject_Z 128)) in *.
  split; [split|].
  - intros [H0 H1].
    assert (inject_Z 0 <= inject_Z f)%Q as H0' by (rewrite <- Zle_Qle; lia).
    assert (inject_Z (f + 1) <= inject_Z 128)%Q as H1'
      by (rewrite <- Zle_Qle; lia).
    change (inject_Z 0) with 0%Q in H0'.
    change (inject_Z 128) with 128%Q in *. split; lra.
  - intros [H0 H1]. change (inject_Z 128) with 128%Q in *.
    assert (inject_Z (-1) < inject_Z f)%Q as H0'.
    { rewrite inject_Z_plus in Hhigh. change (inject_Z 1) with 1%Q in Hhigh.
      change (inject_Z (-1)) with (-1)%Q. lra. }
    assert (inject_Z f < inject_Z 128)%Q as H1'.
    { change (inject_Z 128) with 128%Q. lra. }
    rewrite <- Zlt_Qlt in H0', H1'. lia.
  - intros H1. unfold f. rewrite <- (Qfloor_Z 128). apply Qfloor_comp.
    rewrite H1. reflexivity.
Qed.

End ImportedVelocity.

(** ** The configuration [MidiMe] is built with *)

Section MidiMeConfiguration.
Import MidiMe.

Lemma orNumber_truthy (x : option Q) (d : Q) :
  ¬ (d == 0)%Q → ¬ (orNumber x d == 0)%Q.
Proof.
  intros Hd. unfold orNumber. destruct x as [v|]; [|done].
  destruct (Qeq_bool v 0) eqn:Hv; [done|].
  intros Hv'%Qeq_bool_iff. congruence.
Qed.

Lemma orNumber_kept (v d : Q) : ¬ (v == 0)%Q → orNumber (Some v) d = v.
Proof.
  intros Hv. unfold orNumber. destruct (Qeq_bool v 0) eqn:Hv0; [|done].
  by apply Qeq_bool_iff in Hv0.
Qed.

(** Whatever the caller passes, the model starts untrained and
    uninitialised, both layer lists are present, and the four numbers of
    the configuration are present and not zero: a [beta] or an [epochs] of
    0 cannot be configured. *)
Theorem MidiMe_config_never_zero (given : option MidiMeConfig) :
  let model := constructor given in
  trained model = false ∧ initialized model = false
  ∧ is_Some (encoder_layers (config model))
  ∧ is_Some (decoder_layers (config model))
  ∧ truthy (input_size (config model))
  ∧ truthy (latent_size (config model))
  ∧ truthy (beta (config model))
  ∧ truthy (epochs (config model)).
Proof.
  simpl. split_and!; try done; try (by eexists);
    (eexists; split; [reflexivity|]); by apply orNumber_truthy.
Qed.

(** Building a model from the configuration of a model gives the same
    configuration: the constructor changes nothing that it has filled in
    itself. *)
Theorem MidiMe_config_idempotent (given : option MidiMeConfig) :
  constructor (Some (config (constructor given))) = constructor given.
Proof.
  unfold constructor.
  cbn [from_option id config encoder_layers decoder_layers input_size
       latent_size beta epochs orArray].
  by rewrite !orNumber_kept by (by apply orNumber_truthy).
Qed.

End MidiMeConfiguration.

(** ** The properties above at concrete inputs *)

Section CoconetInstances.
Import Coconet.

Lemma binary_Forall (roll : Pianoroll Z) :
  Forall (Forall (Forall (λ x, x = 0%Z ∨ x = 1%Z))) roll → binary roll.
Proof.
  intros Hall s p v x Hcell. unfold cell in Hcell.
  destruct (roll !! s) as [step|] eqn:Hs; [|done]. simpl in Hcell.
  destruct (step !! p) as [row|] eqn:Hp; [|done]. simpl in Hcell.
  eapply Forall_lookup_1 in Hall; [|done].
  eapply Forall_lookup_1 in Hall; [|done].
  by eapply Forall_lookup_1 in Hall.
Qed.

(** A note of pitch 60 in voice 2 held over the steps 1 and 2 of four. *)
Lemma sequenceToPianoroll_cells_witness :
  let ns := {| notes := [mkNote 60 2 1 3]; totalQuantizedSteps := 3 |} in
  ∃ roll, sequenceToPianoroll ns 4 = Returns roll ∧ shaped 4 roll
    ∧ ∀ s p v, s < 4 → p < NUM_PITCHES → v < 4 →
        cell roll s p v
        = Some (if decide (Exists (λ note, sounds note s p v) (notes ns))
                then 1%Z else 0%Z).
Proof.
  intros ns. apply (sequenceToPianoroll_cells ns 4).
  apply Forall_cons. split; [split; range_facts|apply Forall_nil_2].
Defined.


(** A roll of one step with the cell of pitch row 3, voice 1 active. *)
Lemma pianoroll_decode_encode_witness :
  let roll :=
    [ <[3 := [0; 1; 0; 0]%Z]> (replicate NUM_PITCHES [0; 0; 0; 0]%Z) ] in
  ∃ ns, pianorollToSequence roll = Returns ns
        ∧ sequenceToPianoroll ns 1 = Returns roll.
Proof.
  intros roll. apply (pianoroll_decode_encode roll 1).
  - unfold shaped. apply (bool_decide_unpack _). vm_compute. exact I.
  - apply binary_Forall. apply (bool_decide_unpack _). vm_compute. exact I.
  - exists 0, 3, 1. reflexivity.
Defined.


(** The second note ends at step 6 of a roll of four steps. *)
Lemma sequenceToPianoroll_out_of_range_witness :
  sequenceToPianoroll
    {| notes := [mkNote 60 0 0 1; mkNote 60 1 3 6];
       totalQuantizedSteps := 6 |} 4
  = Throws TypeError.
Proof.
  apply (sequenceToPianoroll_out_of_range _ 4
           [mkNote 60 0 0 1] (mkNote 60 1 3 6) []).
  - reflexivity.
  - apply Forall_cons. split; [split; range_facts|apply Forall_nil_2].
  - range_facts.
  - simpl. lia.
  - range_facts.
Defined.

(** A single note that starts and ends at step 2. *)
Lemma sequenceToPianoroll_empty_length_notes_witness :
  let ns := {| notes := [mkNote 60 0 2 2]; totalQuantizedSteps := 2 |} in
  sequenceToPianoroll ns 3 = Returns (buildEmptyPianoroll 3)
  ∧ (∀ s p v, s < 3 → p < NUM_PITCHES → v < 4 →
       cell (buildEmptyPianoroll 3) s p v = Some 0%Z)
  ∧ pianorollToSequence (buildEmptyPianoroll 3) = Throws TypeError.
Proof.
  intros ns. apply (sequenceToPianoroll_empty_length_notes ns 3).
  apply Forall_cons. split; [split; [range_facts|simpl; lia]|].
  apply Forall_nil_2.
Defined.

Lemma flatArrayToPianoroll_flatten_witness :
  let roll := [replicate NUM_PITCHES [1; 2; 3; 4]%Z] in
  flatArrayToPianoroll (mjoin (mjoin roll)) 1 = Returns roll.
Proof.
  intros roll. apply (flatArrayToPianoroll_flatten 1 roll).
  unfold shaped. apply (bool_decide_unpack _). vm_compute. exact I.
Defined.

End CoconetInstances.

Section MidiInstances.
Import MidiIO.
Local Existing Instance sampleConstants.


Lemma sequenceProtoToMidi_returns_contiguous_witness :
  let ns :=
    {| ticksPerQuarter := None;
       sourceInfo := None;
       timeSignatures := None;
       tempos := None;
       notes := [noteOfInstrument 1; noteOfInstrument 0; noteOfInstrument 1];
       totalTime := 1 |} in
  ∃ json, (sequenceProtoToMidi ns).2 = Returns json
    ∧ ∃ k, length (tracks json) = k
        ∧ ∀ i, (∃ note, note ∈ notes ns ∧ instrumentOf note = i)
               ↔ (0 ≤ i < Z.of_nat k)%Z.
Proof.
  intros ns. eexists. split; [vm_compute; reflexivity|].
  apply (sequenceProtoToMidi_returns_contiguous ns). reflexivity.
Defined.

Lemma sequenceProtoToMidi_contiguous_up_to_ten_witness :
  let ns :=
    {| ticksPerQuarter := Some 220%Z;
       sourceInfo := None;
       timeSignatures := Some [TimeSignature.mk 0 3 4];
       tempos := Some [Tempo.mk 0 90];
       notes := [noteOfInstrument 1; noteOfInstrument 0];
       totalTime := 1 |} in
  ∃ json, (sequenceProtoToMidi ns).2 = Returns json
          ∧ length (tracks json) = 2.
Proof.
  intros ns. apply (sequenceProtoToMidi_contiguous_up_to_ten ns 2).
  - by exists (Tempo.mk 0 90).
  - by exists (TimeSignature.mk 0 3 4).
  - lia.
  - intros i. split.
    + intros (note & Hin & <-).
      apply elem_of_cons in Hin as [->|Hin];
        [change (instrumentOf (noteOfInstrument 1)) with 1%Z; lia|].
      apply list_elem_of_singleton in Hin as ->.
      change (instrumentOf (noteOfInstrument 0)) with 0%Z. lia.
    + intros Hi. exists (noteOfInstrument i). split.
      * assert (i = 1 ∨ i = 0)%Z as [-> | ->] by lia;
          [left|right; left].
      * unfold instrumentOf. simpl. by destruct (decide (i = 0%Z)).
Defined.

(** Two tempos; and one tempo with a time signature at time 1. *)
Lemma sequenceProtoToMidi_rejects_witness :
  (sequenceProtoToMidi
     {| ticksPerQuarter := None;
        sourceInfo := None;
        timeSignatures := Some [TimeSignature.mk 1 3 4];
        tempos := Some [Tempo.mk 0 90; Tempo.mk 2 60];
        notes := [noteOfInstrument 0];
        totalTime := 1 |}).2 = Throws tempoError
  ∧ (sequenceProtoToMidi
       {| ticksPerQuarter := None;
          sourceInfo := None;
          timeSignatures := Some [TimeSignature.mk 1 3 4];
          tempos := Some [Tempo.mk 0 90];
          notes := [noteOfInstrument 5];
          totalTime := 1 |}).2 = Throws timeSignatureError.
Proof.
  split.
  - apply (proj1 (sequenceProtoToMidi_rejects _) (Tempo.mk 0 90)
             [Tempo.mk 2 60]); [reflexivity|by left].
  - apply (proj2 (sequenceProtoToMidi_rejects _) (TimeSignature.mk 1 3 4) []);
      [right; by exists (Tempo.mk 0 90)|reflexivity|by right].
Defined.


Lemma sequenceProtoToMidi_keeps_notes_witness :
  let ns :=
    {| ticksPerQuarter := None;
       sourceInfo := None;
       timeSignatures := None;
       tempos := None;
       notes := [noteOfInstrument 1; noteOfInstrument 0; noteOfInstrument 1];
       totalTime := 1 |} in
  ∃ json, (sequenceProtoToMidi ns).2 = Returns json
    ∧ (∀ j track, tracks json !! j = Some track →
         Track.id track = Z.of_nat j
         ∧ Track.notes track = exportNote <$> group (Z.of_nat j) (notes ns)
         ∧ Track.notes track ≠ [])
    ∧ mjoin (Track.notes <$> tracks json) ≡ₚ exportNote <$> notes ns.
Proof.
  intros ns. eexists. split; [vm_compute; reflexivity|].
  apply (sequenceProtoToMidi_keeps_notes ns). reflexivity.
Defined.

(** A file of three tracks, the second one without notes. *)
Lemma midi_to_sequence_to_midi_witness :
  let parsedMidi :=
    {| header := {| Header.bpm := 96; Header.PPQ := 480;
                    Header.timeSignature := Some (6, 8)%Z |};
       tracks :=
         [ Track.mk 0 [MidiNote.mk 60 0 2 (4 # 5); MidiNote.mk 62 1 1 1]
                    false 0 24;
           Track.mk 1 [] false 1 0;
           Track.mk 2 [MidiNote.mk 36 0 (1 # 2) (1 # 2)] true 9 0 ] |} in
  ∃ ns json,
    midiToSequenceProto parsedMidi = Returns ns
    ∧ sequenceProtoToMidi ns = (ns, Returns json)
    ∧ Header.bpm (header json) = Header.bpm (header parsedMidi)
    ∧ Header.PPQ (header json)
      = (if decide (Header.PPQ (header parsedMidi) = 0%Z)
         then DEFAULT_TICKS_PER_QUARTER else Header.PPQ (header parsedMidi))
    ∧ Header.timeSignature (header json)
      = Some (default (4, 4)%Z (Header.timeSignature (header parsedMidi)))
    ∧ length (tracks json) = length (filter nonEmpty (tracks parsedMidi))
    ∧ ∀ j track,
        filter nonEmpty (tracks parsedMidi) !! j = Some track →
        ∃ out, tracks json !! j = Some out ∧ trackKept j track out.
Proof.
  intros parsedMidi. apply (midi_to_sequence_to_midi parsedMidi).
  apply (bool_decide_unpack _). vm_compute. exact I.
Defined.

Lemma sequenceProtoToMidi_at_most_ten_tracks_witness :
  let ns :=
    {| ticksPerQuarter := None;
       sourceInfo := None;
       timeSignatures := None;
       tempos := None;
       notes := noteOfInstrument <$> [0; 1; 2; 3; 4; 5; 6; 7; 8; 9]%Z;
       totalTime := 1 |} in
  ∃ json, (sequenceProtoToMidi ns).2 = Returns json
          ∧ length (tracks json) ≤ 10.
Proof.
  intros ns. eexists. split; [vm_compute; reflexivity|].
  apply (sequenceProtoToMidi_at_most_ten_tracks ns). reflexivity.
Defined.

(** The sequence with the instruments 0, …, 10. *)
Lemma sequenceProtoToMidi_eleven_or_more_throws_witness :
  (sequenceProtoToMidi elevenInstruments).2 = Throws instrumentError.
Proof.
  apply (sequenceProtoToMidi_eleven_or_more_throws elevenInstruments).
  - by exists (Tempo.mk 0 120).
  - by exists (TimeSignature.mk 0 4 4).
  - intros i Hi. exists (noteOfInstrument i). split.
    + apply list_elem_of_fmap. exists i. split; [done|].
      apply (list_elem_of_lookup_2 _ (Z.to_nat i)).
      replace i with (Z.of_nat (Z.to_nat i)) at 2 by lia.
      assert (Z.to_nat i < 11) as Hlt by lia. revert Hlt.
      generalize (Z.to_nat i). intros n Hn.
      do 11 (destruct n as [|n]; [reflexivity|]). lia.
    + unfold instrumentOf. simpl. by destruct (decide (i = 0%Z)).
Defined.


End MidiInstances.
